(** * autobackup: the retention selector [clean_dates] and the [run_backup] script

    A shallow embedding of the exported cells of [nbs/00_core.ipynb]
    ([create_backup], [clean_dates], [run_backup]) and the properties of the
    retention policy.

    Conventions of the embedding.
    - A Python [str] is a [string]: its UTF-8 bytes.  Python compares [str]
      by code points, and the bytewise order of UTF-8 is the code point
      order, so [list.sort] on strings is a sort for [String.leb].
    - A Python [int] is a [Z]; [//] and [%] with a positive divisor are
      [Z.div] and [Z.modulo] (both round toward minus infinity).
    - A raised exception is the [Raise] case of [outcome].
    - A list object that the code mutates is threaded explicitly: a function
      that changes its argument returns the argument's final contents next
      to its result.

    The file has four parts: the definitions (the program, then the
    vocabulary of the documentation and the examples), the lemmas, the
    numbered properties C1 to C10, and further properties X1 to X16 of the
    exported functions and of the notebook's test cells. *)

From Stdlib Require Import ZArith Lia Ascii.
From stdpp Require Import base list sorting gmap strings.

Open Scope Z_scope.

(** * Part I: definitions *)

(** ** Exceptions and results *)

Inductive exn : Type :=
| ValueError (data : string)        (* strptime / int: data does not parse *)
| OSError (path : string).          (* shutil / pathlib: the operation on path failed *)

Inductive outcome (A : Type) : Type :=
| Return (a : A)
| Raise (e : exn).
Arguments Return {A} a.
Arguments Raise {A} e.

Global Instance outcome_ret : MRet outcome := λ A a, Return a.
Global Instance outcome_bind : MBind outcome := λ A B k m,
  match m with
  | Return a => k a
  | Raise e => Raise e
  end.

(** ** [datetime] and [timedelta] (the parts of the library the code uses) *)

Record datetime : Type := mk_datetime {
  year : Z; month : Z; day : Z;
  hour : Z; minute : Z; second : Z; microsecond : Z
}.

Record timedelta : Type := mk_timedelta {
  days : Z; seconds : Z; microseconds : Z
}.

Definition is_leap (y : Z) : bool :=
  (y mod 4 =? 0) && (negb (y mod 100 =? 0) || (y mod 400 =? 0)).

Definition days_before_year (y : Z) : Z :=
  let y' := y - 1 in y' * 365 + y' / 4 - y' / 100 + y' / 400.

Definition days_in_month (y m : Z) : Z :=
  if (m =? 2) && is_leap y then 29
  else match m with
       | 1 => 31 | 2 => 28 | 3 => 31 | 4 => 30 | 5 => 31 | 6 => 30
       | 7 => 31 | 8 => 31 | 9 => 30 | 10 => 31 | 11 => 30 | 12 => 31
       | _ => -1
       end.

Definition days_before_month (y m : Z) : Z :=
  match m with
  | 1 => 0 | 2 => 31 | 3 => 59 | 4 => 90 | 5 => 120 | 6 => 151
  | 7 => 181 | 8 => 212 | 9 => 243 | 10 => 273 | 11 => 304 | 12 => 334
  | _ => -1
  end + (if (2 <? m) && is_leap y then 1 else 0).

(** [date.toordinal]: day number in the proleptic Gregorian calendar,
    0001-01-01 being day 1. *)
Definition toordinal (t : datetime) : Z :=
  days_before_year (year t) + days_before_month (year t) (month t) + day t.

(** The range checks of the [datetime] constructor. *)
Definition valid_datetime (t : datetime) : bool :=
  (1 <=? year t) && (year t <=? 9999) &&
  (1 <=? month t) && (month t <=? 12) &&
  (1 <=? day t) && (day t <=? days_in_month (year t) (month t)) &&
  (0 <=? hour t) && (hour t <=? 23) &&
  (0 <=? minute t) && (minute t <=? 59) &&
  (0 <=? second t) && (second t <=? 59) &&
  (0 <=? microsecond t) && (microsecond t <=? 999999).

(** [timedelta(days, seconds, microseconds)] normalises its fields:
    [0 <= microseconds < 10^6], [0 <= seconds < 86400], and the sign is
    carried by [days] alone. *)
Definition timedelta_new (d s us : Z) : timedelta :=
  let s' := s + us / 1000000 in
  {| days := d + s' / 86400; seconds := s' mod 86400;
     microseconds := us mod 1000000 |}.

(** [datetime.__sub__] on two naive datetimes. *)
Definition datetime_sub (a b : datetime) : timedelta :=
  let secs t := second t + minute t * 60 + hour t * 3600 in
  timedelta_new (toordinal a - toordinal b) (secs a - secs b)
                (microsecond a - microsecond b).

(** ** [datetime.strptime(d, '%Y%m%d_%H%M%S')]

    The identifiers of the program are the fifteen characters that
    [strftime("%Y%m%d_%H%M%S")] writes: eight decimal digits, an underscore,
    six decimal digits.  On every string of this shape the library's parser
    reads the fields at their fixed positions and then applies the
    constructor's range checks, which is what [strptime] below does.  A string
    of any other shape is rejected here; the library also accepts a few
    abbreviated spellings (one-digit fields, a space-padded day), which no
    identifier written by the program has and no statement below relies
    on. *)

Definition digit (c : ascii) : option Z :=
  let n := Z.of_N (N_of_ascii c) in
  if (48 <=? n) && (n <=? 57) then Some (n - 48) else None.

Definition digits2 (a b : ascii) : option Z :=
  x ← digit a; y ← digit b; Some (10 * x + y).

Definition digits4 (a b c d : ascii) : option Z :=
  x ← digits2 a b; y ← digits2 c d; Some (100 * x + y).

Definition strptime (s : string) : option datetime :=
  match s with
  | String y1 (String y2 (String y3 (String y4
    (String m1 (String m2 (String d1 (String d2
    (String u
    (String h1 (String h2 (String n1 (String n2
    (String s1 (String s2 EmptyString)))))))))))))) =>
      if Ascii.eqb u "_" then
        Y ← digits4 y1 y2 y3 y4;
        m ← digits2 m1 m2;
        d ← digits2 d1 d2;
        H ← digits2 h1 h2;
        M ← digits2 n1 n2;
        S ← digits2 s1 s2;
        let t := mk_datetime Y m d H M S 0 in
        if valid_datetime t then Some t else None
      else None
  | _ => None
  end.
Global Arguments strptime : simpl never.

(** The age test of the list comprehension:
    [(now - datetime.strptime(d, '%Y%m%d_%H%M%S')).days < max_age]. *)
Definition age_days (now t : datetime) : Z := days (datetime_sub now t).
Global Arguments age_days : simpl never.

(** ** [clean_dates] *)

(** [list.sort] and [sorted] on strings. *)
Definition str_le (a b : string) : Prop := Is_true (String.leb a b).

Global Instance str_le_dec a b : Decision (str_le a b).
Proof. unfold str_le. apply _. Defined.

Definition sort_strings (l : list string) : list string := merge_sort str_le l.

(** [lt_max = [d for d in dates if (now - strptime(d)).days < max_age]];
    the first identifier that does not parse raises. *)
Fixpoint lt_max (now : datetime) (max_age : Z) (dates : list string)
  : outcome (list string) :=
  match dates with
  | [] => Return []
  | d :: ds =>
      match strptime d with
      | None => Raise (ValueError d)
      | Some t =>
          r ← lt_max now max_age ds;
          Return (if age_days now t <? max_age then d :: r else r)
      end
  end.

(** The loop [for max_age in max_ages: ...; if lt_max: clean.append(lt_max[0])],
    started with the current contents of [clean]. *)
Fixpoint buckets (now : datetime) (dates : list string) (max_ages : list Z)
  (clean : list string) : outcome (list string) :=
  match max_ages with
  | [] => Return clean
  | a :: rest =>
      l ← lt_max now a dates;
      buckets now dates rest (match l with [] => clean | d :: _ => clean ++ [d] end)
  end.

(** [dates[-5:]]: a negative start index is counted from the end and
    clamped at the beginning of the list. *)
Definition last5 (dates : list string) : list string :=
  drop (length dates - 5)%nat dates.

(** [sorted(set(clean))]. *)
Definition sorted_set (clean : list string) : list string :=
  sort_strings (elements (list_to_set clean : gset string)).

(** [clean_dates(dates, now, max_ages)].  [clock] is what [datetime.now()]
    returns when it is read, [now = None] is the omitted argument.  The first
    component of the result is the contents of the caller's list [dates]
    when the call ends ([dates.sort()] sorts it in place); the second is the
    returned value or the exception. *)
Definition clean_dates (clock : datetime) (dates : list string)
  (now : option datetime) (max_ages : list Z)
  : list string * outcome (list string) :=
  let now := default clock now in
  let dates := sort_strings dates in
  (dates,
   clean ← buckets now dates max_ages [];
   Return (sorted_set (clean ++ last5 dates))).

(** ** The script: [create_backup] and [run_backup]

    The script works on the outside world.  [world] holds what the two
    functions read and change: the wall clock, the source path, the entries
    of the destination directory, and the log.  An operation is a function
    from the world to the new world and a result or an exception; the
    effects made before an exception stay. *)

Inductive src_kind : Type := SrcFile | SrcDir | SrcMissing.

Inductive log_record : Type :=
| BackupCreated (src dest : string)   (* info: "Backup created: {src} -> {dest}" *)
| RemovedOldBackup (backup : string)  (* info: "Removed old backup: {backup}" *)
| BackupFailed (e : exn).             (* error: "Backup failed: {str(e)}" *)

Record world : Type := mk_world {
  wall : nat → datetime;          (* the n-th reading of datetime.now() *)
  reads : nat;                    (* readings of the clock made so far *)
  source : src_kind;              (* what the path src is *)
  writable : bool;                (* entries can be created in dest *)
  disk_full : bool;               (* copying data into dest fails *)
  entries : list (string * bool); (* dest: name and is_dir(), in iterdir() order *)
  locked : list string;           (* names whose removal fails (permission, busy) *)
  log : list log_record           (* the log file, oldest record first *)
}.

Definition tick (w : world) : world :=
  mk_world (wall w) (S (reads w)) (source w) (writable w) (disk_full w)
           (entries w) (locked w) (log w).

Definition set_entries (es : list (string * bool)) (w : world) : world :=
  mk_world (wall w) (reads w) (source w) (writable w) (disk_full w)
           es (locked w) (log w).

Definition add_log (r : log_record) (w : world) : world :=
  mk_world (wall w) (reads w) (source w) (writable w) (disk_full w)
           (entries w) (locked w) (log w ++ [r]).

Record M (A : Type) : Type := Action { run : world → world * outcome A }.
Arguments Action {A} run.
Arguments run {A} m w.

Global Instance M_ret : MRet M := λ A a, Action (λ w, (w, Return a)).
Global Instance M_bind : MBind M := λ A B k m, Action (λ w,
  match run m w with
  | (w', Return a) => run (k a) w'
  | (w', Raise e) => (w', Raise e)
  end).

Definition raise {A} (e : exn) : M A := Action (λ w, (w, Raise e)).

(** [try: body  except Exception as e: handler(e)]. *)
Definition try_except {A} (body : M A) (handler : exn → M A) : M A :=
  Action (λ w,
    match run body w with
    | (w', Return a) => (w', Return a)
    | (w', Raise e) => run (handler e) w'
    end).

Definition datetime_now : M datetime :=
  Action (λ w, (tick w, Return (wall w (reads w)))).

Definition logging (r : log_record) : M unit :=
  Action (λ w, (add_log r w, Return ())).

(** [strftime("%Y%m%d_%H%M%S")]: every field zero-padded to its width, as
    the library writes the years 1000 to 9999. *)
Definition digit_char (n : Z) : ascii := ascii_of_N (Z.to_N (48 + n mod 10)).

Definition pad2 (n : Z) (rest : string) : string :=
  String (digit_char (n / 10)) (String (digit_char n) rest).

Definition strftime (t : datetime) : string :=
  pad2 (year t / 100) (pad2 (year t) (pad2 (month t) (pad2 (day t)
    (String "_" (pad2 (hour t) (pad2 (minute t) (pad2 (second t) EmptyString))))))).

(** Creating the directory [dest / name]: [mkdir(parents=True,
    exist_ok=...)] and the [os.makedirs] of [shutil.copytree]. *)
Definition make_dir (name : string) (exist_ok : bool) : M unit := Action (λ w,
  if decide ((name, true) ∈ entries w) then
    if exist_ok then (w, Return ()) else (w, Raise (OSError name))
  else if decide (name ∈ (entries w).*1) then (w, Raise (OSError name))
  else if writable w then (set_entries (entries w ++ [(name, true)]) w, Return ())
  else (w, Raise (OSError name))).

(** Copying the data into [dest / name]. *)
Definition copy_into (name : string) : M unit := Action (λ w,
  if disk_full w then (w, Raise (OSError name)) else (w, Return ())).

(** [create_backup(src, dest)]: a directory named by the current time is
    made under [dest] and the source is copied into it.  A file goes through
    [mkdir(parents=True, exist_ok=True)] and [shutil.copy2]; anything else
    goes through [shutil.copytree], which refuses an existing target and
    raises on a missing source before it creates anything. *)
Definition create_backup (src dest : string) : M unit :=
  now ← datetime_now;
  let timestamp := strftime now in
  Action (λ w,
    match source w with
    | SrcFile => run (make_dir timestamp true ;; copy_into timestamp) w
    | SrcDir => run (make_dir timestamp false ;; copy_into timestamp) w
    | SrcMissing => (w, Raise (OSError src))
    end).

(** [[d.name for d in Path(dest).iterdir() if d.is_dir()]]. *)
Definition iterdir_dirs : M (list string) := Action (λ w,
  (w, Return ((filter (λ e, e.2 = true) (entries w)).*1))).

(** [shutil.rmtree(Path(dest) / backup)]. *)
Definition rmtree (backup : string) : M unit := Action (λ w,
  if decide (backup ∈ locked w) then (w, Raise (OSError backup))
  else if decide ((backup, true) ∈ entries w) then
    (set_entries (filter (λ e, e ≠ (backup, true)) (entries w)) w, Return ())
  else (w, Raise (OSError backup))).

(** [max_ages.split(',')]. *)
Fixpoint split (sep : ascii) (s : string) : list string :=
  match s with
  | EmptyString => [EmptyString]
  | String c s' =>
      if Ascii.eqb c sep then EmptyString :: split sep s'
      else match split sep s' with
           | [] => [String c EmptyString]
           | p :: ps => String c p :: ps
           end
  end.

Section run_backup.
(** [int(age.strip())] of the library: the integer a piece of text
    denotes, if it denotes one. *)
Variable int_strip : string → option Z.

(** [[int(age.strip()) for age in max_ages.split(',')]]. *)
Fixpoint parse_ages (pieces : list string) : M (list Z) :=
  match pieces with
  | [] => mret []
  | p :: ps =>
      match int_strip p with
      | None => raise (ValueError p)
      | Some a => r ← parse_ages ps; mret (a :: r)
      end
  end.

(** The call [clean_dates(backups, max_ages=max_ages)]: the clock is read,
    and the list [backups] is left sorted. *)
Definition call_clean_dates (backups : list string) (max_ages : list Z)
  : M (list string * list string) := Action (λ w,
  let '(backups', r) := clean_dates (wall w (reads w)) backups None max_ages in
  (tick w,
   match r with
   | Return to_keep => Return (backups', to_keep)
   | Raise e => Raise e
   end)).

(** [for backup in backups: if backup not in to_keep: rmtree; info]. *)
Fixpoint prune (to_keep : list string) (backups : list string) : M unit :=
  match backups with
  | [] => mret ()
  | backup :: rest =>
      (if decide (backup ∈ to_keep) then mret ()
       else rmtree backup ;; logging (RemovedOldBackup backup)) ;;
      prune to_keep rest
  end.

(** [run_backup(src, dest, max_ages, log_file)].  [logging.basicConfig]
    selects the file the records go to; here they go to the [log] of the
    world.  The loop runs over the list that [clean_dates] has sorted. *)
Definition run_backup (src dest max_ages log_file : string) : M unit :=
  try_except
    (create_backup src dest ;;
     logging (BackupCreated src dest) ;;
     ages ← parse_ages (split "," max_ages);
     backups ← iterdir_dirs;
     '(backups, to_keep) ← call_clean_dates backups ages;
     prune to_keep backups)
    (λ e, logging (BackupFailed e)).
End run_backup.

(** ** Instants and identifiers *)

(** The instant a [datetime] denotes, in microseconds since the start of
    day 0 of the proleptic Gregorian calendar.  "Chronologically earlier"
    is the order of instants. *)
Definition instant (t : datetime) : Z :=
  (((toordinal t * 24 + hour t) * 60 + minute t) * 60 + second t) * 1000000
  + microsecond t.

(** Lexicographic comparison of lists of integers. *)
Fixpoint lexcmp (k l : list Z) : comparison :=
  match k, l with
  | [], [] => Eq
  | [], _ :: _ => Lt
  | _ :: _, [] => Gt
  | a :: k, b :: l => match a ?= b with Eq => lexcmp k l | c => c end
  end.

(** [valid_datetime] as a proposition. *)
Record valid (t : datetime) : Prop := {
  valid_year : 1 ≤ year t ≤ 9999;
  valid_month : 1 ≤ month t ≤ 12;
  valid_day : 1 ≤ day t ≤ days_in_month (year t) (month t);
  valid_hour : 0 ≤ hour t ≤ 23;
  valid_minute : 0 ≤ minute t ≤ 59;
  valid_second : 0 ≤ second t ≤ 59;
  valid_microsecond : 0 ≤ microsecond t ≤ 999999
}.

(** A well-formed identifier is a string that [strptime] parses. *)
Definition well_formed (d : string) : Prop := is_Some (strptime d).

(** The instant a well-formed identifier denotes. *)
Definition stamp (d : string) : Z := from_option instant 0 (strptime d).

(** ** Ages *)

(** The age the code compares with a threshold, for an identifier. *)
Definition code_age (now : datetime) (d : string) : Z :=
  from_option (age_days now) 0 (strptime d).

Definition usec_per_day : Z := 86400000000.

(** The age in the words of the documentation: the time from the
    identifier's instant to [now], truncated to whole days. *)
Definition spec_age (now : datetime) (d : string) : Z :=
  (instant now - stamp d) `quot` usec_per_day.

(** ** The retention rule in the words of the documentation *)

(** [x] is one of the [k] chronologically latest identifiers of [dates]:
    fewer than [k] identifiers of [dates] are later than [x]. *)
Definition among_latest (k : nat) (dates : list string) (x : string) : Prop :=
  x ∈ dates ∧ (length (filter (λ y, (stamp x < stamp y)%Z) dates) < k)%nat.

(** [x] is the chronologically earliest identifier of [dates] whose age at
    [now] is strictly under [a] days. *)
Definition earliest_under (age : datetime → string → Z) (now : datetime)
  (a : Z) (dates : list string) (x : string) : Prop :=
  x ∈ dates ∧ age now x < a ∧
  Forall (λ y, age now y < a → stamp x ≤ stamp y) dates.

Global Instance among_latest_dec k dates x : Decision (among_latest k dates x).
Proof. unfold among_latest. apply _. Defined.

Global Instance earliest_under_dec age now a dates x :
  Decision (earliest_under age now a dates x).
Proof. unfold earliest_under. apply _. Defined.

(** The element the loop body appends for threshold [a], if any. *)
Definition representative (now : datetime) (dates : list string) (a : Z)
  : option string :=
  head (filter (λ d, code_age now d < a) dates).

(** The bucket rule for one call, with the age measured by [age]: the call
    returns, every bucket that has an identifier under its threshold has an
    earliest one, that one is in the result, and whatever is in the result
    is one of the five latest or such a representative. *)
Definition bucket_rule (age : datetime → string → Z) (clock : datetime)
  (dates : list string) (now : option datetime) (max_ages : list Z) : Prop :=
  ∃ r, (clean_dates clock dates now max_ages).2 = Return r ∧
    (∀ a x, a ∈ max_ages →
       earliest_under age (default clock now) a dates x → x ∈ r) ∧
    (∀ a y, a ∈ max_ages → y ∈ dates → age (default clock now) y < a →
       ∃ x, earliest_under age (default clock now) a dates x) ∧
    (∀ x, x ∈ r →
       among_latest 5 dates x ∨
       ∃ a, a ∈ max_ages ∧ earliest_under age (default clock now) a dates x).

(** One step of the simulation: append one identifier, run the selector at
    [now] on the list, continue with what it returns. *)
Fixpoint simulate (max_ages : list Z) (steps : list (datetime * string))
  (test_dates : list string) : outcome (list string) :=
  match steps with
  | [] => Return test_dates
  | (now, new) :: rest =>
      kept ← (clean_dates now (test_dates ++ [new]) (Some now) max_ages).2;
      simulate max_ages rest kept
  end.

(** The sentence of C9 for one run: every directory that is listed after
    the snapshot was created, is not retained and is not locked, is gone
    when the run ends. *)
Definition pruning_completes (int_strip : string → option Z)
  (src dest max_ages log_file : string) (w : world) : Prop :=
  ∀ w1 ages backups to_keep,
    run (create_backup src dest) w = (w1, Return ()) →
    (run (parse_ages int_strip (split "," max_ages))
         (add_log (BackupCreated src dest) w1)).2 = Return ages →
    clean_dates (wall w1 (reads w1))
      ((filter (λ e, e.2 = true) (entries w1)).*1) None ages
    = (backups, Return to_keep) →
    ∀ b, b ∈ backups → b ∉ to_keep → b ∉ locked w1 →
         (b, true) ∉ entries
           (run (run_backup int_strip src dest max_ages log_file) w).1.

(** ** Examples *)

Definition scenario : list string :=
  ["20240916_130322"; "20241101_140322"; "20241113_140322";
   "20241115_080322"; "20241115_090322"; "20241115_100322";
   "20241115_110322"; "20241115_130322"]%string.

Definition scenario_now : datetime := mk_datetime 2024 11 15 14 3 22 0.

Definition scenario_keep : list string :=
  ["20241101_140322"; "20241113_140322"; "20241115_080322";
   "20241115_090322"; "20241115_100322"; "20241115_110322";
   "20241115_130322"]%string.

(** One year after the scenario. *)
Definition later_clock : datetime := mk_datetime 2025 11 15 14 3 22 0.

(** Six identifiers of the hours after [midnight]. *)
Definition midnight : datetime := mk_datetime 2024 11 15 0 0 0 0.

Definition morning : list string :=
  ["20241115_010000"; "20241115_020000"; "20241115_030000";
   "20241115_040000"; "20241115_050000"; "20241115_060000"]%string.

(** Two steps of a simulation on the scenario. *)
Definition sample_steps : list (datetime * string) :=
  [(mk_datetime 2024 11 15 14 3 22 0, "20241115_140322"%string);
   (mk_datetime 2024 11 15 15 3 22 0, "20241115_150322"%string)].

(** A world for examples: the scenario's eight snapshots, the clock stopped
    at the scenario's [now], and the second oldest snapshot locked. *)
Definition demo_world (source : src_kind) : world :=
  mk_world (λ _, scenario_now) 0 source true false
           (map (λ d, (d, true)) scenario) ["20241101_140322"%string] [].

(** A reading of [int(age.strip())] on unsigned decimal numerals. *)
Definition int_decimal (s : string) : option Z :=
  let fix go (acc : Z) (s : string) : option Z :=
    match s with
    | EmptyString => Some acc
    | String c s' => d ← digit c; go (10 * acc + d) s'
    end in
  match s with
  | EmptyString => None
  | _ => go 0 s
  end.

(** The example run: the world after the snapshot was created, the
    keep-set for the threshold 2, and the sorted listing split at the
    locked directory. *)
Definition demo_created : world :=
  (run (create_backup "src" "dst") (demo_world SrcDir)).1.

Definition demo_keep : list string :=
  ["20241115_080322"; "20241115_090322"; "20241115_100322";
   "20241115_110322"; "20241115_130322"; "20241115_140322"]%string.

Definition demo_pre : list string := ["20240916_130322"]%string.

Definition demo_post : list string :=
  ["20241113_140322"; "20241115_080322"; "20241115_090322";
   "20241115_100322"; "20241115_110322"; "20241115_130322";
   "20241115_140322"]%string.

(** ** Further definitions and examples *)

(** The scenario an hour later, after a new snapshot. *)
Definition scenario_later : list string :=
  scenario_keep ++ ["20241115_140322"%string].

Definition scenario_now_later : datetime := mk_datetime 2024 11 15 15 3 22 0.

(** The directory names [run_backup] lists in a world. *)
Definition dirs (w : world) : list string :=
  (filter (λ e, e.2 = true) (entries w)).*1.

(** A world in which nothing fails: the scenario's eight snapshots, the
    clock stopped at the scenario's [now], nothing locked. *)
Definition calm_world : world :=
  mk_world (λ _, scenario_now) 0 SrcDir true false
           (map (λ d, (d, true)) scenario) [] [].

Definition calm_created : world :=
  (run (create_backup "src" "dst") calm_world).1.

Definition calm_keep : list string :=
  ["20241101_140322"; "20241113_140322"; "20241115_080322";
   "20241115_090322"; "20241115_100322"; "20241115_110322";
   "20241115_130322"; "20241115_140322"]%string.



(** A world with a file as source and a full disk. *)
Definition full_world : world :=
  mk_world (λ _, scenario_now) 0 SrcFile true true
           (map (λ d, (d, true)) scenario) [] [].

(** The calm world one run later, with the clock still in the same second. *)
Definition same_second_world : world :=
  mk_world (λ _, scenario_now) 0 SrcDir true false
           (map (λ d, (d, true)) (scenario ++ ["20241115_140322"%string])) [] [].

Definition MAXORDINAL : Z := 3652059.

Definition DAYS_IN_MONTH (m : Z) : Z :=
  match m with
  | 1 => 31 | 2 => 28 | 3 => 31 | 4 => 30 | 5 => 31 | 6 => 30
  | 7 => 31 | 8 => 31 | 9 => 30 | 10 => 31 | 11 => 30 | 12 => 31
  | _ => -1
  end.

Definition DAYS_BEFORE_MONTH (m : Z) : Z :=
  match m with
  | 1 => 0 | 2 => 31 | 3 => 59 | 4 => 90 | 5 => 120 | 6 => 151
  | 7 => 181 | 8 => 212 | 9 => 243 | 10 => 273 | 11 => 304 | 12 => 334
  | _ => -1
  end.

(** [_ord2ymd(n)]: year, month and day of day number [n]. *)
Definition ord2ymd (n : Z) : Z * Z * Z :=
  let n := n - 1 in
  let n400 := n / 146097 in
  let n := n mod 146097 in
  let year := n400 * 400 + 1 in
  let n100 := n / 36524 in
  let n := n mod 36524 in
  let n4 := n / 1461 in
  let n := n mod 1461 in
  let n1 := n / 365 in
  let n := n mod 365 in
  let year := year + n100 * 100 + n4 * 4 + n1 in
  if (n1 =? 4) || (n100 =? 4) then (year - 1, 12, 31)
  else
    let leapyear := (n1 =? 3) && (negb (n4 =? 24) || (n100 =? 3)) in
    let month := Z.shiftr (n + 50) 5 in
    let preceding :=
      DAYS_BEFORE_MONTH month + (if (2 <? month) && leapyear then 1 else 0) in
    if n <? preceding then
      let month := month - 1 in
      let preceding :=
        preceding
        - (DAYS_IN_MONTH month + (if (month =? 2) && leapyear then 1 else 0)) in
      (year, month, n - preceding + 1)
    else (year, month, n - preceding + 1).

(** [timedelta.__add__], [timedelta.__neg__], and [timedelta(days=d, hours=h)]. *)
Definition timedelta_add (a b : timedelta) : timedelta :=
  timedelta_new (days a + days b) (seconds a + seconds b)
                (microseconds a + microseconds b).

Definition timedelta_neg (a : timedelta) : timedelta :=
  timedelta_new (- days a) (- seconds a) (- microseconds a).

Definition timedelta_of (d h : Z) : timedelta := timedelta_new d (h * 3600) 0.

(** [datetime.__add__(timedelta)]; [None] is the [OverflowError] for a
    result outside the years 1 to 9999. *)
Definition datetime_add (t : datetime) (d : timedelta) : option datetime :=
  let delta :=
    timedelta_add
      (timedelta_new (toordinal t)
         (hour t * 3600 + minute t * 60 + second t) (microsecond t)) d in
  let hour := seconds delta / 3600 in
  let rem := seconds delta mod 3600 in
  let minute := rem / 60 in
  let second := rem mod 60 in
  if (0 <? days delta) && (days delta <=? MAXORDINAL) then
    let '(y, m, dd) := ord2ymd (days delta) in
    Some (mk_datetime y m dd hour minute second (microseconds delta))
  else None.

(** [datetime.__sub__(timedelta)] is the addition of the negated duration. *)
Definition datetime_minus (t : datetime) (d : timedelta) : option datetime :=
  datetime_add t (timedelta_neg d).

(** The length of a duration in microseconds. *)
Definition total_us (d : timedelta) : Z :=
  (days d * 86400 + seconds d) * 1000000 + microseconds d.

(** [generate_test_dates(num_dates, base_date)]: the identifiers of
    [num_dates] successive hours from [base_date]; [None] when an addition
    overflows. *)
Definition generate_test_dates (num_dates : Z) (base_date : datetime)
  : option (list string) :=
  mapM (λ i, strftime <$> datetime_add base_date (timedelta_of 0 i))
       (seqZ 0 num_dates).

Definition usec_per_hour : Z := 3600000000.

(** The body of the simulation cell, [steps] times: [now += timedelta(hours=1)],
    [test_dates.append(now.strftime(...))],
    [test_dates = clean_dates(test_dates, now)].  [None] is an exception. *)
Fixpoint simulation_loop (steps : nat) (now : datetime) (test_dates : list string)
  : option (datetime * list string) :=
  match steps with
  | O => Some (now, test_dates)
  | S steps =>
      now ← datetime_add now (timedelta_of 0 1);
      match (clean_dates now (test_dates ++ [strftime now]) (Some now)
               [2; 14; 60]).2 with
      | Return kept => simulation_loop steps now kept
      | Raise _ => None
      end
  end.

(** The simulation cell started at [now]:
    [test_dates = generate_test_dates(2400, now - timedelta(days=100))],
    then the loop.  The cell runs the loop [30 * 24] times. *)
Definition simulation (now : datetime) (steps : nat)
  : option (datetime * list string) :=
  base ← datetime_minus now (timedelta_of 100 0);
  test_dates ← generate_test_dates 2400 base;
  simulation_loop steps now test_dates.

(** An afternoon with microseconds, as [datetime.now()] gives it. *)
Definition sample_now : datetime := mk_datetime 2024 11 15 14 3 22 123456.

(** * Part II: lemmas *)

(** ** The order of [list.sort] on strings *)

Lemma ascii_compare_Z (a b : ascii) :
  Ascii.compare a b = (Z.of_N (N_of_ascii a) ?= Z.of_N (N_of_ascii b)).
Proof. unfold Ascii.compare. by rewrite N2Z.inj_compare. Qed.

Lemma string_compare_refl (s : string) : String.compare s s = Eq.
Proof.
  induction s as [|c s IH]; simpl; [done|].
  by rewrite ascii_compare_Z, Z.compare_refl.
Qed.

Lemma string_compare_lt_trans (a b c : string) :
  String.compare a b = Lt → String.compare b c = Lt → String.compare a c = Lt.
Proof.
  revert b c. induction a as [|x a IH]; intros [|y b] [|z c]; simpl; try done.
  rewrite !ascii_compare_Z.
  destruct (Z.compare_spec (Z.of_N (N_of_ascii x)) (Z.of_N (N_of_ascii y))) as [E1|L1|G1];
    destruct (Z.compare_spec (Z.of_N (N_of_ascii y)) (Z.of_N (N_of_ascii z))) as [E2|L2|G2];
    try done; intros H1 H2.
  - rewrite E1, E2, Z.compare_refl. by eapply IH.
  - rewrite E1. by apply Z.compare_lt_iff in L2 as ->.
  - rewrite <- E2. by apply Z.compare_lt_iff in L1 as ->.
  - assert (Z.of_N (N_of_ascii x) < Z.of_N (N_of_ascii z)) as L by lia.
    by apply Z.compare_lt_iff in L as ->.
Qed.

Lemma str_le_alt (a b : string) : str_le a b ↔ String.compare a b ≠ Gt.
Proof. unfold str_le, String.leb. by destruct (String.compare a b). Qed.

Global Instance str_le_refl : Reflexive str_le.
Proof. intros s. apply str_le_alt. by rewrite string_compare_refl. Qed.

Global Instance str_le_total : Total str_le.
Proof.
  intros a b. destruct (String.leb_total a b) as [H|H]; [left|right];
    unfold str_le; by rewrite H.
Qed.

Global Instance str_le_antisym : AntiSymm (=) str_le.
Proof.
  intros a b H1 H2. apply String.leb_antisym; by apply Is_true_true.
Qed.

Global Instance str_le_trans : Transitive str_le.
Proof.
  intros a b c. rewrite !str_le_alt. intros H1 H2.
  destruct (String.compare a b) eqn:E1; [| |done].
  - apply String.compare_eq_iff in E1. by subst.
  - destruct (String.compare b c) eqn:E2; [| |done].
    + apply String.compare_eq_iff in E2. subst. by rewrite E1.
    + by rewrite (string_compare_lt_trans a b c).
Qed.

(** ** Calendar arithmetic *)

Lemma lexcmp_group (n a b a' b' : Z) (k l : list Z) :
  0 ≤ b < n → 0 ≤ b' < n →
  lexcmp (a :: b :: k) (a' :: b' :: l) = lexcmp (n * a + b :: k) (n * a' + b' :: l).
Proof.
  intros Hb Hb'. simpl.
  destruct (Z.compare_spec a a') as [->|L|G].
  - destruct (Z.compare_spec b b') as [->|L|G].
    + by rewrite Z.compare_refl.
    + assert (n * a' + b < n * a' + b') as ->%Z.compare_lt_iff by lia. done.
    + assert (n * a' + b' < n * a' + b) as ->%Z.compare_gt_iff by lia. done.
  - assert (n * a + b < n * a' + b') as ->%Z.compare_lt_iff by nia. done.
  - assert (n * a' + b' < n * a + b) as ->%Z.compare_gt_iff by nia. done.
Qed.

Ltac div_lia := Z.to_euclidean_division_equations; lia.

Lemma is_leap_cases (y : Z) :
  (is_leap y = true ∧ days_before_year (y + 1) = days_before_year y + 366) ∨
  (is_leap y = false ∧ days_before_year (y + 1) = days_before_year y + 365).
Proof.
  unfold is_leap, days_before_year.
  replace (y + 1 - 1) with (y - 1 + 1) by lia.
  destruct (Z.eqb_spec (y mod 4) 0), (Z.eqb_spec (y mod 100) 0),
    (Z.eqb_spec (y mod 400) 0); simpl;
    first [left; split; [done|div_lia] | right; split; [done|div_lia]].
Qed.

Lemma days_before_year_mono (y y' : Z) :
  y ≤ y' → days_before_year y ≤ days_before_year y'.
Proof. unfold days_before_year. div_lia. Qed.

Lemma month_cases (m : Z) :
  1 ≤ m ≤ 12 →
  m = 1 ∨ m = 2 ∨ m = 3 ∨ m = 4 ∨ m = 5 ∨ m = 6 ∨
  m = 7 ∨ m = 8 ∨ m = 9 ∨ m = 10 ∨ m = 11 ∨ m = 12.
Proof. lia. Qed.

Lemma days_before_month_end (y m : Z) :
  1 ≤ m ≤ 12 →
  0 ≤ days_before_month y m ∧
  days_before_month y m + days_in_month y m
    ≤ 365 + (if is_leap y then 1 else 0).
Proof.
  intros Hm. unfold days_before_month, days_in_month.
  destruct (month_cases m Hm) as [->|[->|[->|[->|[->|[->|[->|[->|[->|[->|[->| ->]]]]]]]]]]];
    destruct (is_leap y); simpl; lia.
Qed.

Lemma days_before_month_lt (y m m' : Z) :
  1 ≤ m → m < m' → m' ≤ 12 →
  days_before_month y m + days_in_month y m ≤ days_before_month y m'.
Proof.
  intros H1 H2 H3. unfold days_before_month, days_in_month.
  assert (1 ≤ m ≤ 12) as Hm by lia. assert (1 ≤ m' ≤ 12) as Hm' by lia.
  destruct (month_cases m Hm) as [->|[->|[->|[->|[->|[->|[->|[->|[->|[->|[->| ->]]]]]]]]]]];
    destruct (month_cases m' Hm') as [->|[->|[->|[->|[->|[->|[->|[->|[->|[->|[->| ->]]]]]]]]]]];
    try lia; destruct (is_leap y); simpl; lia.
Qed.

Lemma valid_datetime_spec (t : datetime) : valid_datetime t = true ↔ valid t.
Proof.
  unfold valid_datetime. rewrite !andb_true_iff, !Z.leb_le.
  split; [intros; constructor; lia | intros []; lia].
Qed.

Lemma toordinal_compare (t t' : datetime) (k l : list Z) :
  valid t → valid t' →
  lexcmp (year t :: month t :: day t :: k) (year t' :: month t' :: day t' :: l)
  = lexcmp (toordinal t :: k) (toordinal t' :: l).
Proof.
  intros [_ Hm Hd _ _ _ _] [_ Hm' Hd' _ _ _ _]. unfold toordinal.
  assert (∀ u v m d m' d', u < v →
    1 ≤ m ≤ 12 → 1 ≤ d ≤ days_in_month u m →
    1 ≤ m' ≤ 12 → 1 ≤ d' ≤ days_in_month v m' →
    days_before_year u + days_before_month u m + d
    < days_before_year v + days_before_month v m' + d') as Hyear.
  { intros u v m d m0 d0 Huv Hm1 Hd1 Hm2 Hd2.
    pose proof (days_before_month_end u m Hm1).
    pose proof (days_before_month_end v m0 Hm2).
    pose proof (days_before_year_mono (u + 1) v).
    destruct (is_leap_cases u) as [[E ?]|[E ?]]; rewrite E in *; lia. }
  simpl.
  destruct (Z.compare_spec (year t) (year t')) as [Ey|Ly|Gy].
  - rewrite <- Ey in *.
    destruct (Z.compare_spec (month t) (month t')) as [Em|Lm|Gm].
    + rewrite <- Em in *.
      destruct (Z.compare_spec (day t) (day t')) as [Ed|Ld|Gd].
      * by rewrite Ed, Z.compare_refl.
      * match goal with |- _ = match ?a ?= ?b with _ => _ end =>
          assert (a < b) as ->%Z.compare_lt_iff by lia end. done.
      * match goal with |- _ = match ?a ?= ?b with _ => _ end =>
          assert (b < a) as ->%Z.compare_gt_iff by lia end. done.
    + pose proof (days_before_month_lt (year t) (month t) (month t')).
      match goal with |- _ = match ?a ?= ?b with _ => _ end =>
          assert (a < b) as ->%Z.compare_lt_iff by lia end. done.
    + pose proof (days_before_month_lt (year t) (month t') (month t)).
      match goal with |- _ = match ?a ?= ?b with _ => _ end =>
          assert (b < a) as ->%Z.compare_gt_iff by lia end. done.
  - pose proof (Hyear _ _ _ _ _ _ Ly Hm Hd Hm' Hd').
    match goal with |- _ = match ?a ?= ?b with _ => _ end =>
          assert (a < b) as ->%Z.compare_lt_iff by lia end. done.
  - pose proof (Hyear _ _ _ _ _ _ Gy Hm' Hd' Hm Hd).
    match goal with |- _ = match ?a ?= ?b with _ => _ end =>
          assert (b < a) as ->%Z.compare_gt_iff by lia end. done.
Qed.

Lemma instant_compare (t t' : datetime) :
  valid t → valid t' →
  (instant t ?= instant t')
  = lexcmp [year t; month t; day t; hour t; minute t; second t; microsecond t]
           [year t'; month t'; day t'; hour t'; minute t'; second t'; microsecond t'].
Proof.
  intros V V'. rewrite toordinal_compare by done.
  destruct V as [_ _ _ Hh Hn Hs Hu], V' as [_ _ _ Hh' Hn' Hs' Hu'].
  rewrite (lexcmp_group 24) by lia.
  rewrite (lexcmp_group 60) by lia.
  rewrite (lexcmp_group 60) by lia.
  rewrite (lexcmp_group 1000000) by lia.
  unfold instant. simpl.
  match goal with |- (?a ?= ?b) = match ?c ?= ?d with _ => _ end =>
    replace c with a by lia; replace d with b by lia end.
  by destruct (_ ?= _).
Qed.

(** ** Identifiers: the string order is the chronological order *)

Lemma digit_spec (c : ascii) (a : Z) :
  digit c = Some a → Z.of_N (N_of_ascii c) = a + 48 ∧ 0 ≤ a ≤ 9.
Proof.
  unfold digit. case_match eqn:E; [|done]. intros [= <-].
  apply andb_true_iff in E as [?%Z.leb_le ?%Z.leb_le]. lia.
Qed.

Lemma digits2_spec (a b : ascii) (v : Z) :
  digits2 a b = Some v →
  ∃ x y, v = 10 * x + y ∧ 0 ≤ x ≤ 9 ∧ 0 ≤ y ≤ 9 ∧
         Z.of_N (N_of_ascii a) = x + 48 ∧ Z.of_N (N_of_ascii b) = y + 48.
Proof.
  unfold digits2. destruct (digit a) as [x|] eqn:Ea; [|done].
  destruct (digit b) as [y|] eqn:Eb; [|done]. intros [= <-].
  apply digit_spec in Ea, Eb. exists x, y. lia.
Qed.

Lemma strptime_fields (s : string) (t : datetime) :
  strptime s = Some t →
  ∃ y1 y2 y3 y4 m1 m2 d1 d2 h1 h2 n1 n2 s1 s2 : Z,
    t = mk_datetime (100 * (10 * y1 + y2) + (10 * y3 + y4)) (10 * m1 + m2)
          (10 * d1 + d2) (10 * h1 + h2) (10 * n1 + n2) (10 * s1 + s2) 0 ∧
    map (λ c, Z.of_N (N_of_ascii c)) (String.list_ascii_of_string s)
    = [y1 + 48; y2 + 48; y3 + 48; y4 + 48; m1 + 48; m2 + 48; d1 + 48; d2 + 48;
       95; h1 + 48; h2 + 48; n1 + 48; n2 + 48; s1 + 48; s2 + 48] ∧
    Forall (λ a, 0 ≤ a ≤ 9) [y1; y2; y3; y4; m1; m2; d1; d2; h1; h2; n1; n2; s1; s2] ∧
    valid t.
Proof.
  unfold strptime. intros H.
  do 15 (destruct s as [|? s]; [discriminate H|]).
  destruct s; [|discriminate H].
  case_match eqn:Eu; [|discriminate]. apply Ascii.eqb_eq in Eu as ->.
  unfold digits4 in H.
  repeat match type of H with
  | context [mbind _ (digits2 ?c ?d)] =>
      let E := fresh "E" in
      destruct (digits2 c d) eqn:E; cbn [mbind option_bind] in H;
      [apply digits2_spec in E as (? & ? & -> & ? & ? & ? & ?)|discriminate H]
  end.
  case_match eqn:V; [|discriminate]. injection H as <-.
  do 14 eexists. split; [reflexivity|]. split; [|split].
  - cbn [String.list_ascii_of_string map]. repeat f_equal; assumption.
  - repeat (apply Forall_cons_2; [assumption|]). apply Forall_nil_2.
  - by apply valid_datetime_spec.
Qed.

Lemma codes_compare (s s' : string) :
  String.compare s s'
  = lexcmp (map (λ c, Z.of_N (N_of_ascii c)) (String.list_ascii_of_string s))
           (map (λ c, Z.of_N (N_of_ascii c)) (String.list_ascii_of_string s')).
Proof.
  revert s'. induction s as [|c s IH]; intros [|c' s']; simpl; try done.
  by rewrite ascii_compare_Z, IH.
Qed.

Lemma lexcmp_digits2 (a b a' b' : Z) (k l : list Z) :
  0 ≤ b ≤ 9 → 0 ≤ b' ≤ 9 →
  lexcmp (a + 48 :: b + 48 :: k) (a' + 48 :: b' + 48 :: l)
  = lexcmp (10 * a + b :: k) (10 * a' + b' :: l).
Proof.
  intros Hb Hb'. rewrite <- (lexcmp_group 10) by lia.
  simpl. by rewrite !(Z.add_comm _ 48), !Z.add_compare_mono_l.
Qed.

Lemma lexcmp_head (a b : Z) (k l k' l' : list Z) :
  lexcmp k l = lexcmp k' l' → lexcmp (a :: k) (b :: l) = lexcmp (a :: k') (b :: l').
Proof. simpl. by intros ->. Qed.

(** On parsed identifiers the order of [list.sort] is the order of the
    instants they denote. *)
Lemma strptime_compare (x y : string) (tx ty : datetime) :
  strptime x = Some tx → strptime y = Some ty →
  String.compare x y = (instant tx ?= instant ty).
Proof.
  intros Hx Hy.
  apply strptime_fields in Hx as (y1&y2&y3&y4&m1&m2&d1&d2&h1&h2&n1&n2&s1&s2&->&Cx&Dx&Vx).
  apply strptime_fields in Hy as (z1&z2&z3&z4&p1&p2&e1&e2&i1&i2&o1&o2&r1&r2&->&Cy&Dy&Vy).
  rewrite instant_compare by done. rewrite codes_compare, Cx, Cy.
  cbn [year month day hour minute second microsecond].
  rewrite !Forall_cons in Dx, Dy.
  rewrite <- (lexcmp_group 100) by lia.
  do 4 (rewrite lexcmp_digits2 by tauto; apply lexcmp_head).
  change (lexcmp (95 :: ?k) (95 :: ?l)) with (lexcmp k l).
  do 2 (rewrite lexcmp_digits2 by tauto; apply lexcmp_head).
  rewrite lexcmp_digits2 by tauto. simpl. by destruct (_ ?= _).
Qed.

Lemma str_le_stamp (x y : string) :
  well_formed x → well_formed y → str_le x y ↔ stamp x ≤ stamp y.
Proof.
  intros [tx Hx] [ty Hy]. unfold stamp. rewrite Hx, Hy. simpl.
  rewrite str_le_alt, (strptime_compare x y tx ty) by done.
  by rewrite Z.compare_gt_iff, Z.nlt_ge.
Qed.

Lemma stamp_inj (x y : string) :
  well_formed x → well_formed y → stamp x = stamp y → x = y.
Proof.
  intros Wx Wy E. apply (anti_symm str_le); apply str_le_stamp; try done; lia.
Qed.

(** ** Flooring and truncation of ages *)

Lemma age_days_floor (now t : datetime) :
  age_days now t = (instant now - instant t) / usec_per_day.
Proof.
  unfold age_days, datetime_sub, timedelta_new, instant, usec_per_day. simpl.
  generalize (toordinal now) (toordinal t). intros o o'.
  destruct now as [? ? ? h n s u], t as [? ? ? h' n' s' u']. simpl.
  div_lia.
Qed.

Lemma code_age_floor (now : datetime) (d : string) :
  well_formed d → code_age now d = (instant now - stamp d) / usec_per_day.
Proof.
  intros [t Ht]. unfold code_age, stamp. rewrite Ht. simpl. apply age_days_floor.
Qed.

(** Truncation and flooring select the same identifiers for a threshold of
    at least one day, and for every threshold on identifiers that are not
    later than [now]. *)
Lemma spec_age_code_age (now : datetime) (d : string) (a : Z) :
  well_formed d → 1 ≤ a ∨ stamp d ≤ instant now →
  spec_age now d < a ↔ code_age now d < a.
Proof.
  intros W H. rewrite code_age_floor by done. unfold spec_age, usec_per_day.
  assert (1 ≤ a ∨ 0 ≤ instant now - stamp d) as H' by lia. clear H.
  revert H'. generalize (instant now - stamp d). intros z H.
  Z.to_euclidean_division_equations. lia.
Qed.

(** ** Lists of identifiers *)

Lemma filter_none {A} (P : A → Prop) `{∀ x, Decision (P x)} (l : list A) :
  Forall (λ x, ¬ P x) l → filter P l = [].
Proof.
  induction 1 as [|x l Hx _ IH]; [done|].
  rewrite filter_cons. by destruct (decide (P x)).
Qed.

Lemma filter_all {A} (P : A → Prop) `{∀ x, Decision (P x)} (l : list A) :
  Forall P l → filter P l = l.
Proof.
  induction 1 as [|x l Hx _ IH]; [done|].
  rewrite filter_cons. destruct (decide (P x)); [by rewrite IH|done].
Qed.

Lemma length_omap_le {A B} (f : A → option B) (l : list A) :
  (length (omap f l) ≤ length l)%nat.
Proof. induction l as [|x l IH]; csimpl; [done|]. destruct (f x); csimpl; lia. Qed.

Section sorted_lists.
Implicit Types (l : list string) (x y : string).

Lemma sort_strings_perm l : sort_strings l ≡ₚ l.
Proof. apply merge_sort_Permutation. Qed.

Lemma sort_strings_sorted l : StronglySorted str_le (sort_strings l).
Proof. apply StronglySorted_merge_sort; apply _. Qed.

Lemma sort_strings_unique l l' : l ≡ₚ l' → sort_strings l = sort_strings l'.
Proof.
  intros E. apply (Sorted_unique str_le).
  - apply Sorted_merge_sort, _.
  - apply Sorted_merge_sort, _.
  - by rewrite !sort_strings_perm.
Qed.

Lemma sort_strings_id l : Sorted str_le l → sort_strings l = l.
Proof.
  intros S. apply (Sorted_unique str_le); [apply Sorted_merge_sort, _|done|].
  apply sort_strings_perm.
Qed.

Lemma elem_of_sorted_set x l : x ∈ sorted_set l ↔ x ∈ l.
Proof.
  unfold sorted_set. rewrite sort_strings_perm, elem_of_elements.
  apply elem_of_list_to_set.
Qed.

Lemma NoDup_sorted_set l : NoDup (sorted_set l).
Proof. unfold sorted_set. rewrite sort_strings_perm. apply NoDup_elements. Qed.

Lemma sorted_set_sorted l : StronglySorted str_le (sorted_set l).
Proof. apply sort_strings_sorted. Qed.

Lemma length_sorted_set_le l : (length (sorted_set l) ≤ length l)%nat.
Proof.
  apply submseteq_length, NoDup_submseteq; [apply NoDup_sorted_set|].
  intros x. by rewrite elem_of_sorted_set.
Qed.

Lemma length_sorted_set_ge l k :
  NoDup k → (∀ x, x ∈ k → x ∈ l) → (length k ≤ length (sorted_set l))%nat.
Proof.
  intros N H. apply submseteq_length, NoDup_submseteq; [done|].
  intros x. rewrite elem_of_sorted_set. apply H.
Qed.

Lemma sorted_set_perm l l' : l ≡ₚ l' → sorted_set l = sorted_set l'.
Proof. unfold sorted_set. by intros ->. Qed.

(** The first element of a filtered sorted list is the least element
    that passes the filter. *)
Lemma sorted_head_filter (P : string → Prop) `{∀ x, Decision (P x)} l x :
  StronglySorted str_le l →
  head (filter P l) = Some x →
  x ∈ l ∧ P x ∧ ∀ y, y ∈ l → P y → str_le x y.
Proof.
  intros S Hx.
  pose proof (head_Some_elem_of _ _ Hx) as [Px Hin]%list_elem_of_filter.
  split; [done|]. split; [done|]. intros y Hy Py.
  apply head_filter_Some in Hx as (l1 & l2 & -> & Hl1).
  apply StronglySorted_app in S as (_ & _ & S2).
  apply StronglySorted_cons in S2 as [Hle _].
  apply elem_of_app in Hy as [Hy|Hy].
  - rewrite Forall_forall in Hl1. by destruct (Hl1 y Hy).
  - apply elem_of_cons in Hy as [->|Hy]; [done|].
    rewrite Forall_forall in Hle. by apply Hle.
Qed.

(** The last [k] elements of a sorted list of identifiers are its [k]
    latest ones. *)
Lemma sorted_drop_latest (k : nat) l x :
  Forall well_formed l → StronglySorted str_le l →
  x ∈ drop (length l - k) l ↔ among_latest k l x.
Proof.
  intros W S. unfold among_latest.
  set (n := (length l - k)%nat).
  assert (l = take n l ++ drop n l) as E by by rewrite take_drop.
  assert (length (drop n l) ≤ k)%nat as Hlen by (rewrite length_drop; lia).
  pose proof W as W'. rewrite E in W'. apply Forall_app in W' as [W1 W2].
  rewrite Forall_forall in W1, W2.
  assert (∀ u v, u ∈ take n l → v ∈ drop n l → stamp u ≤ stamp v) as Hle.
  { intros u v Hu Hv. rewrite E in S.
    apply StronglySorted_app in S as (S & _ & _).
    apply str_le_stamp; auto. }
  split.
  - intros Hx. split; [rewrite E; apply elem_of_app; by right|].
    rewrite E at 1. rewrite filter_app, length_app, filter_none.
    + simpl. eapply Nat.lt_le_trans; [|exact Hlen].
      apply (length_filter_lt _ _ x); [done|lia].
    + apply Forall_forall. intros u Hu. specialize (Hle u x Hu Hx). lia.
  - intros [Hin Hcount].
    destruct (decide (x ∈ drop n l)) as [|Hout]; [done|exfalso].
    rewrite E in Hin. apply elem_of_app in Hin as [Hin|Hin]; [|done].
    assert (n ≠ 0)%nat as Hn
      by (intros Hn; rewrite Hn in Hin; by apply elem_of_nil in Hin).
    assert (length (drop n l) = k) as Hk by (rewrite length_drop; lia).
    assert (filter (λ y, stamp x < stamp y) (drop n l) = drop n l) as Hf.
    { apply filter_all, Forall_forall. intros v Hv.
      pose proof (Hle x v Hin Hv).
      destruct (decide (stamp x = stamp v)) as [Heq|]; [|lia].
      apply stamp_inj in Heq; auto. by subst v. }
    rewrite E in Hcount at 1.
    rewrite filter_app, length_app, Hf, Hk in Hcount. lia.
Qed.

Lemma among_latest_perm (k : nat) l l' x :
  l ≡ₚ l' → among_latest k l x ↔ among_latest k l' x.
Proof. unfold among_latest. by intros ->. Qed.

Lemma earliest_under_perm age now a l l' x :
  l ≡ₚ l' → earliest_under age now a l x ↔ earliest_under age now a l' x.
Proof. unfold earliest_under. by intros ->. Qed.

Lemma earliest_under_ext (age age' : datetime → string → Z) now a l x :
  (∀ y, y ∈ l → age now y < a ↔ age' now y < a) →
  earliest_under age now a l x ↔ earliest_under age' now a l x.
Proof.
  intros H. unfold earliest_under. rewrite !Forall_forall.
  split; intros (Hx & Ax & F); (split; [done|]); (split; [by apply H|]);
    intros y Hy Ay; apply F; [done|by apply H| done | by apply H].
Qed.

Lemma earliest_under_unique age now a l x y :
  Forall well_formed l →
  earliest_under age now a l x → earliest_under age now a l y → x = y.
Proof.
  intros W (Hx & Ax & Fx) (Hy & Ay & Fy).
  rewrite Forall_forall in W, Fx, Fy.
  apply stamp_inj; auto. specialize (Fx y Hy Ay). specialize (Fy x Hx Ax). lia.
Qed.

(** On a sorted list the code's choice [lt_max[0]] is the earliest
    identifier under the threshold. *)
Lemma head_filter_earliest age now a l x :
  Forall well_formed l → StronglySorted str_le l →
  head (filter (λ d, age now d < a) l) = Some x ↔ earliest_under age now a l x.
Proof.
  intros W S. pose proof W as W'. rewrite Forall_forall in W'. split.
  - intros (Hin & Hx & Hle)%sorted_head_filter; [|done].
    split; [done|]. split; [done|]. apply Forall_forall. intros y Hy Ay.
    apply str_le_stamp; auto.
  - intros Hx.
    destruct (head (filter (λ d, age now d < a) l)) as [y|] eqn:Hy.
    + f_equal. apply (earliest_under_unique age now a l); [done| |done].
      apply sorted_head_filter in Hy as (Hin & Ay & Hle); [|done].
      split; [done|]. split; [done|]. apply Forall_forall. intros z Hz Az.
      apply str_le_stamp; auto.
    + apply head_None in Hy. destruct Hx as (Hin & Ax & _).
      by destruct (filter_nil_not_elem_of _ _ x Hy Ax).
Qed.
End sorted_lists.

(** ** What [clean_dates] computes *)

Lemma lt_max_well_formed (now : datetime) (a : Z) (dates : list string) :
  Forall well_formed dates →
  lt_max now a dates = Return (filter (λ d, code_age now d < a) dates).
Proof.
  induction 1 as [|d ds [t Ht] _ IH]; [done|].
  simpl. rewrite Ht, IH. simpl. rewrite filter_cons.
  assert (code_age now d = age_days now t) as -> by (unfold code_age; by rewrite Ht).
  destruct (Z.ltb_spec (age_days now t) a), (decide (age_days now t < a)); done || lia.
Qed.

Lemma lt_max_ill_formed (dates : list string) :
  ¬ Forall well_formed dates →
  ∃ d, d ∈ dates ∧ ¬ well_formed d ∧
       ∀ now a, lt_max now a dates = Raise (ValueError d).
Proof.
  induction dates as [|d ds IH]; intros H; [by destruct H|].
  destruct (strptime d) as [t|] eqn:Ht.
  - destruct IH as (d' & Hin & Hd' & Hraise).
    { intros F. apply H. constructor; [by exists t|done]. }
    exists d'. split; [by right|]. split; [done|].
    intros now a. simpl. by rewrite Ht, Hraise.
  - exists d. split; [by left|]. split.
    + intros [t Ht']. congruence.
    + intros now a. simpl. by rewrite Ht.
Qed.

Lemma buckets_well_formed (now : datetime) (dates : list string)
  (max_ages : list Z) (clean : list string) :
  Forall well_formed dates →
  buckets now dates max_ages clean
  = Return (clean ++ omap (representative now dates) max_ages).
Proof.
  intros W. revert clean. induction max_ages as [|a rest IH]; intros clean; simpl.
  - by rewrite app_nil_r.
  - rewrite lt_max_well_formed by done. simpl. rewrite IH.
    unfold representative at 2.
    destruct (filter _ dates); simpl; [done|]. by rewrite <- app_assoc.
Qed.

Lemma buckets_ill_formed (dates : list string) :
  ¬ Forall well_formed dates →
  ∃ d, d ∈ dates ∧ ¬ well_formed d ∧
       ∀ now a rest clean,
         buckets now dates (a :: rest) clean = Raise (ValueError d).
Proof.
  intros (d & Hin & Hd & Hraise)%lt_max_ill_formed.
  exists d. split; [done|]. split; [done|].
  intros now a rest clean. simpl. by rewrite Hraise.
Qed.

Lemma clean_dates_well_formed (clock : datetime) (dates : list string)
  (now : option datetime) (max_ages : list Z) :
  Forall well_formed dates →
  clean_dates clock dates now max_ages
  = (sort_strings dates,
     Return (sorted_set
       (omap (representative (default clock now) (sort_strings dates)) max_ages
        ++ last5 (sort_strings dates)))).
Proof.
  intros W. unfold clean_dates.
  rewrite buckets_well_formed by by rewrite sort_strings_perm.
  done.
Qed.

Lemma clean_dates_perm (clock : datetime) (dates dates' : list string)
  (now : option datetime) (max_ages : list Z) :
  dates ≡ₚ dates' →
  clean_dates clock dates now max_ages = clean_dates clock dates' now max_ages.
Proof. intros E. unfold clean_dates. by rewrite (sort_strings_unique _ _ E). Qed.

(** The keep-set, element by element. *)
Lemma clean_dates_spec (clock : datetime) (dates : list string)
  (now : option datetime) (max_ages : list Z) :
  Forall well_formed dates →
  ∃ r, (clean_dates clock dates now max_ages).2 = Return r ∧
       StronglySorted str_le r ∧ NoDup r ∧
       ∀ x, x ∈ r ↔
            among_latest 5 dates x ∨
            ∃ a, a ∈ max_ages ∧
                 earliest_under code_age (default clock now) a dates x.
Proof.
  intros W. rewrite clean_dates_well_formed by done. eexists. split; [done|].
  split; [apply sorted_set_sorted|]. split; [apply NoDup_sorted_set|].
  intros x. rewrite elem_of_sorted_set, elem_of_app, list_elem_of_omap.
  assert (Forall well_formed (sort_strings dates)) as W'
    by by rewrite sort_strings_perm.
  unfold last5. rewrite sorted_drop_latest by (done || apply sort_strings_sorted).
  rewrite (among_latest_perm _ _ dates) by apply sort_strings_perm.
  rewrite (comm (∨)). apply or_iff_compat_l.
  apply exist_proper. intros a. apply and_iff_compat_l.
  unfold representative.
  rewrite head_filter_earliest by (done || apply sort_strings_sorted).
  apply earliest_under_perm, sort_strings_perm.
Qed.

Lemma earliest_under_exists (age : datetime → string → Z) (now : datetime)
  (a : Z) (dates : list string) (y : string) :
  Forall well_formed dates → y ∈ dates → age now y < a →
  ∃ x, earliest_under age now a dates x.
Proof.
  intros W Hy Ay.
  assert (Forall well_formed (sort_strings dates)) as W'
    by by rewrite sort_strings_perm.
  destruct (head (filter (λ d, age now d < a) (sort_strings dates))) as [x|] eqn:Hx.
  - exists x. apply (earliest_under_perm _ _ _ (sort_strings dates));
      [apply sort_strings_perm|].
    apply head_filter_earliest; [done|apply sort_strings_sorted|done].
  - apply head_None in Hx.
    destruct (filter_nil_not_elem_of _ _ y Hx Ay). by rewrite sort_strings_perm.
Qed.

Lemma bucket_rule_code_age (clock : datetime) (dates : list string)
  (now : option datetime) (max_ages : list Z) :
  Forall well_formed dates → bucket_rule code_age clock dates now max_ages.
Proof.
  intros W. destruct (clean_dates_spec clock dates now max_ages W)
    as (r & Hr & _ & _ & Hmem).
  exists r. split; [done|]. split; [|split].
  - intros a x Ha Hx. apply Hmem. right. by exists a.
  - intros a y _ Hy Ay. by apply (earliest_under_exists _ _ _ _ y).
  - intros x Hx. by apply Hmem.
Qed.

Lemma among_latest_short (dates : list string) (x : string) :
  (length dates ≤ 5)%nat → x ∈ dates → among_latest 5 dates x.
Proof.
  intros Hlen Hx. split; [done|].
  eapply Nat.lt_le_trans; [|exact Hlen].
  apply (length_filter_lt _ _ x); [done|]. simpl. lia.
Qed.

Lemma clean_dates_bounds (clock : datetime) (dates : list string)
  (now : option datetime) (max_ages : list Z) :
  NoDup dates → Forall well_formed dates →
  ∃ r, (clean_dates clock dates now max_ages).2 = Return r ∧
       (∀ x, x ∈ r → x ∈ dates) ∧ NoDup r ∧
       (length r ≤ length max_ages + 5)%nat ∧
       (min 5 (length dates) ≤ length r)%nat.
Proof.
  intros N W. rewrite clean_dates_well_formed by done.
  eexists. split; [done|].
  set (sd := sort_strings dates).
  assert (sd ≡ₚ dates) as Hp by apply sort_strings_perm.
  assert (length (last5 sd) = min 5 (length dates)) as Hlast.
  { unfold last5. rewrite length_drop, Hp. lia. }
  split; [|split; [|split]].
  - intros x. rewrite elem_of_sorted_set, elem_of_app, list_elem_of_omap.
    intros [(a & _ & Ha)|Hx].
    + apply head_Some_elem_of, list_elem_of_filter in Ha as [_ Ha].
      by rewrite <- Hp.
    + rewrite <- Hp. unfold last5 in Hx.
      eapply elem_of_submseteq; [exact Hx|apply submseteq_drop].
  - apply NoDup_sorted_set.
  - etrans; [apply length_sorted_set_le|].
    rewrite length_app, Hlast.
    pose proof (length_omap_le (representative (default clock now) sd) max_ages).
    lia.
  - rewrite <- Hlast. apply length_sorted_set_ge.
    + unfold last5. eapply sublist_NoDup; [|apply sublist_drop]. by rewrite Hp.
    + intros x Hx. apply elem_of_app. by right.
Qed.

Local Arguments Nat.min : simpl never.
Local Arguments Nat.max : simpl never.

Lemma simulate_bounds (max_ages : list Z) (steps : list (datetime * string))
  (dates : list string) :
  NoDup (dates ++ steps.*2) → Forall well_formed (dates ++ steps.*2) →
  ∃ r, simulate max_ages steps dates = Return r ∧
       (∀ x, x ∈ r → x ∈ dates ++ steps.*2) ∧ NoDup r ∧
       (length r ≤ max (length dates) (length max_ages + 5))%nat ∧
       (steps ≠ [] → length r ≤ length max_ages + 5)%nat ∧
       (min 5 (length dates + length steps) ≤ length r)%nat.
Proof.
  revert dates. induction steps as [|[now new] rest IH]; intros dates N W.
  - simpl in *. rewrite app_nil_r in N, W |- *. exists dates.
    split_and!; [done|done|done|lia|by intros []|lia].
  - assert (NoDup ((dates ++ [new]) ++ rest.*2)) as N'
      by (rewrite <- app_assoc; exact N).
    assert (Forall well_formed ((dates ++ [new]) ++ rest.*2)) as W'
      by (rewrite <- app_assoc; exact W).
    apply NoDup_app in N' as (N1 & Hdisj & N2).
    apply Forall_app in W' as [W1 W2].
    cbn [simulate].
    destruct (clean_dates_bounds now (dates ++ [new]) (Some now) max_ages N1 W1)
      as (r1 & -> & Hsub1 & Nr1 & Hup1 & Hlo1).
    simpl. rewrite length_app in Hlo1. simpl in Hlo1.
    destruct (IH r1) as (r & -> & Hsub & Nr & Hup & _ & Hlo).
    { apply NoDup_app. split; [done|]. split; [|done]. auto. }
    { apply Forall_app. split; [|done].
      rewrite Forall_forall in W1 |- *. auto. }
    exists r. split; [done|]. split; [|split; [done|]].
    + intros x [Hx|Hx]%Hsub%elem_of_app.
      * apply Hsub1, elem_of_app in Hx as [Hx|Hx%list_elem_of_singleton].
        -- apply elem_of_app. by left.
        -- subst x. apply elem_of_app. right. apply list_elem_of_here.
      * apply elem_of_app. right. by apply list_elem_of_further.
    + simpl. split_and!; [lia|intros _; lia|lia].
Qed.

Lemma morning_well_formed : Forall well_formed morning.
Proof. by apply (bool_decide_unpack _); vm_compute. Qed.

(** ** What [run_backup] does *)

Lemma run_bind {A B} (m : M A) (k : A → M B) (w : world) :
  run (m ≫= k) w
  = match run m w with
    | (w', Return a) => run (k a) w'
    | (w', Raise e) => (w', Raise e)
    end.
Proof. done. Qed.

Lemma parse_ages_world (int_strip : string → option Z) (pieces : list string)
  (w : world) :
  (run (parse_ages int_strip pieces) w).1 = w.
Proof.
  induction pieces as [|p ps IH]; simpl; [done|].
  destruct (int_strip p); [|done]. rewrite run_bind.
  destruct (run (parse_ages int_strip ps) w) as [w' [r|e]]; simpl in *; done.
Qed.

Lemma create_backup_keeps_entries (src dest : string) (w : world) (x : string * bool) :
  x ∈ entries w → x ∈ entries (run (create_backup src dest) w).1.
Proof.
  intros Hx. unfold create_backup. rewrite run_bind. simpl.
  destruct (source w); simpl; [| |done].
  - destruct (decide _); simpl; [by destruct (disk_full _)|].
    destruct (decide _); simpl; [done|].
    destruct (writable w); simpl; [|done].
    destruct (disk_full w); simpl; apply elem_of_app; by left.
  - destruct (decide _); simpl; [done|].
    destruct (decide _); simpl; [done|].
    destruct (writable w); simpl; [|done].
    destruct (disk_full w); simpl; apply elem_of_app; by left.
Qed.

Lemma prune_app (to_keep l1 l2 : list string) (w : world) :
  run (prune to_keep (l1 ++ l2)) w
  = match run (prune to_keep l1) w with
    | (w', Return _) => run (prune to_keep l2) w'
    | (w', Raise e) => (w', Raise e)
    end.
Proof.
  revert w. induction l1 as [|x l1 IH]; intros w; [done|].
  cbn [app prune]. rewrite !run_bind.
  destruct (run _ w) as [w' [[]|e]]; [apply IH|done].
Qed.

Lemma prune_locked (to_keep : list string) (b : string) (post : list string)
  (w : world) :
  b ∉ to_keep → b ∈ locked w →
  run (prune to_keep (b :: post)) w = (w, Raise (OSError b)).
Proof.
  intros Hk Hl. cbn [prune]. rewrite run_bind.
  destruct (decide (b ∈ to_keep)); [done|]. rewrite run_bind.
  unfold rmtree. cbn [run]. by destruct (decide (b ∈ locked w)).
Qed.

(** A pass over directories that are all retained or removable deletes
    exactly the ones that are not retained, and logs each deletion. *)
Lemma prune_ok (to_keep l : list string) (w : world) :
  NoDup l →
  Forall (λ x, x ∈ to_keep ∨ ((x ∉ locked w) ∧ (x, true) ∈ entries w)) l →
  ∃ w', run (prune to_keep l) w = (w', Return ()) ∧
        locked w' = locked w ∧
        (∀ e, e ∈ entries w' ↔
              e ∈ entries w ∧ ¬ (∃ x, e = (x, true) ∧ x ∈ l ∧ x ∉ to_keep)) ∧
        log w' = log w ++ (RemovedOldBackup <$> filter (λ x, x ∉ to_keep) l).
Proof.
  revert w. induction l as [|x l IH]; intros w N F.
  - exists w. split; [done|]. split; [done|]. split.
    + intros e. split; [intros He; split; [done|]|by intros [? _]].
      intros (y & _ & Hy & _). by apply elem_of_nil in Hy.
    + by rewrite filter_nil, fmap_nil, app_nil_r.
  - apply NoDup_cons in N as [Hx N]. apply Forall_cons in F as [Fx F].
    cbn [prune]. rewrite run_bind.
    destruct (decide (x ∈ to_keep)) as [Hk|Hk].
    + destruct (IH w N F) as (w' & Hrun & Hl & He & Hlog).
      exists w'. cbn [run mret M_ret]. split; [done|]. split; [done|]. split.
      * intros e. rewrite He. apply and_iff_compat_l, not_iff_compat.
        split; intros (y & -> & Hy & Hy'); exists y.
        -- split; [done|]. split; [by right|done].
        -- split; [done|]. split; [|done].
           apply elem_of_cons in Hy as [->|Hy]; done.
      * rewrite Hlog. by rewrite filter_cons_False by (intros H; by apply H).
    + destruct Fx as [?|[Hlock Hent]]; [done|].
      rewrite run_bind. unfold rmtree at 1. cbn [run].
      destruct (decide (x ∈ locked w)) as [?|_]; [done|].
      destruct (decide ((x, true) ∈ entries w)) as [_|?]; [|done].
      cbn [run logging].
      set (w1 := add_log _ _).
      destruct (IH w1) as (w' & Hrun & Hl & He & Hlog); [done| |].
      { apply Forall_forall. intros y Hy. rewrite Forall_forall in F.
        destruct (F y Hy) as [?|[? ?]]; [by left|right]. split; [done|].
        apply list_elem_of_filter. split; [|done].
        intros [= ->]. done. }
      exists w'. split; [done|]. split; [done|]. split.
      * intros e. rewrite He. unfold w1. cbn [entries add_log set_entries].
        rewrite list_elem_of_filter. split.
        -- intros [[Hne Hin] Hno]. split; [done|].
           intros (y & -> & [->|Hy]%elem_of_cons & Hy'); [done|].
           apply Hno. by exists y.
        -- intros [Hin Hno]. split; [split; [|done]|].
           ++ intros ->. apply Hno. exists x. split; [done|]. split; [by left|done].
           ++ intros (y & -> & Hy & Hy'). apply Hno. exists y.
              split; [done|]. split; [by right|done].
      * rewrite Hlog. unfold w1. cbn [log add_log set_entries].
        rewrite filter_cons_True by done. rewrite fmap_cons.
        by rewrite <- app_assoc.
Qed.

Lemma dirs_are_entries (es : list (string * bool)) (x : string) :
  x ∈ (filter (λ e, e.2 = true) es).*1 → (x, true) ∈ es.
Proof.
  intros ([y k] & -> & [Hk Hin]%list_elem_of_filter)%list_elem_of_fmap.
  simpl in *. by subst k.
Qed.

Lemma dirs_NoDup (es : list (string * bool)) :
  NoDup es.*1 → NoDup (filter (λ e, e.2 = true) es).*1.
Proof.
  intros N. eapply sublist_NoDup; [exact N|].
  apply fmap_sublist, sublist_filter.
Qed.


(** ** Names written by [create_backup] parse back *)

Lemma digit_digit_char (n : Z) : digit (digit_char n) = Some (n mod 10).
Proof.
  unfold digit, digit_char.
  assert (0 ≤ n mod 10 < 10) as Hn by (apply Z.mod_pos_bound; lia).
  rewrite N_ascii_embedding by lia.
  rewrite Z2N.id by lia.
  destruct (Z.leb_spec 48 (48 + n mod 10)), (Z.leb_spec (48 + n mod 10) 57);
    simpl; [f_equal; lia|lia|lia|lia].
Qed.

Lemma digits2_pad2 (n : Z) :
  0 ≤ n ≤ 99 →
  digits2 (digit_char (n / 10)) (digit_char n) = Some n.
Proof.
  intros Hn. unfold digits2. rewrite !digit_digit_char. simpl.
  f_equal. div_lia.
Qed.

Lemma strptime_strftime (t : datetime) :
  valid t →
  strptime (strftime t)
  = Some (mk_datetime (year t) (month t) (day t) (hour t) (minute t) (second t) 0).
Proof.
  intros V. pose proof V as [Hy Hm Hd Hh Hn Hs Hu].
  assert (day t ≤ 31) as Hd31.
  { destruct Hd as [_ Hd]. revert Hd. unfold days_in_month.
    destruct (month_cases _ Hm) as [->|[->|[->|[->|[->|[->|[->|[->|[->|[->|[->| ->]]]]]]]]]]];
      destruct (is_leap (year t)); simpl; lia. }
  unfold strftime, pad2, strptime.
  change (Ascii.eqb "_" "_") with true. cbn iota.
  unfold digits4.
  rewrite (digits2_pad2 (year t / 100)) by div_lia.
  assert (digits2 (digit_char (year t / 10)) (digit_char (year t))
          = Some (year t mod 100)) as ->.
  { unfold digits2. rewrite !digit_digit_char. simpl. f_equal. div_lia. }
  rewrite !digits2_pad2 by lia. cbn [mbind option_bind].
  replace (100 * (year t / 100) + year t mod 100) with (year t) by div_lia.
  assert (valid_datetime
            (mk_datetime (year t) (month t) (day t) (hour t) (minute t) (second t) 0)
          = true) as ->; [|done].
  apply valid_datetime_spec. by constructor.
Qed.

(** ** More on what [clean_dates] computes *)

Lemma clean_dates_subset (clock : datetime) (dates : list string)
  (now : option datetime) (max_ages : list Z) (r : list string) :
  Forall well_formed dates →
  (clean_dates clock dates now max_ages).2 = Return r →
  ∀ x, x ∈ r → x ∈ dates.
Proof.
  intros W Hr x Hx.
  destruct (clean_dates_spec clock dates now max_ages W) as (r' & Hr' & _ & _ & Hmem).
  rewrite Hr in Hr'. injection Hr' as <-.
  apply Hmem in Hx as [[? _]|(a & _ & ? & _)]; done.
Qed.



Lemma code_age_mono (now now' : datetime) (d : string) :
  well_formed d → instant now ≤ instant now' →
  code_age now d ≤ code_age now' d.
Proof.
  intros W H. rewrite !code_age_floor by done.
  apply Z.div_le_mono; [done|lia].
Qed.

Lemma length_filter_subset {A} (P : A → Prop) `{∀ x, Decision (P x)}
  (l k : list A) :
  NoDup l → (∀ x, x ∈ l → x ∈ k) →
  (length (filter P l) ≤ length (filter P k))%nat.
Proof.
  intros N Hsub. apply submseteq_length, NoDup_submseteq.
  - by apply NoDup_filter.
  - intros x [Px Hx]%list_elem_of_filter. apply list_elem_of_filter. auto.
Qed.

Lemma sorted_set_fixed (r : list string) :
  StronglySorted str_le r → NoDup r →
  ∀ r', StronglySorted str_le r' → NoDup r' → (∀ x, x ∈ r' ↔ x ∈ r) → r' = r.
Proof.
  intros S N r' S' N' Hmem.
  apply (Sorted_unique str_le); [by apply StronglySorted_Sorted..|].
  by apply NoDup_Permutation.
Qed.


(** ** The stages of [run_backup] *)

Lemma run_backup_stages (int_strip : string → option Z)
  (src dest max_ages log_file : string) (w : world) :
  run (run_backup int_strip src dest max_ages log_file) w
  = match run (create_backup src dest) w with
    | (w1, Raise e) => (add_log (BackupFailed e) w1, Return ())
    | (w1, Return _) =>
        let wa := add_log (BackupCreated src dest) w1 in
        match (run (parse_ages int_strip (split "," max_ages)) wa).2 with
        | Raise e => (add_log (BackupFailed e) wa, Return ())
        | Return ages =>
            match clean_dates (wall w1 (reads w1)) (dirs w1) None ages with
            | (_, Raise e) => (add_log (BackupFailed e) (tick wa), Return ())
            | (backups, Return to_keep) =>
                match run (prune to_keep backups) (tick wa) with
                | (w', Raise e) => (add_log (BackupFailed e) w', Return ())
                | (w', Return _) => (w', Return ())
                end
            end
        end
    end.
Proof.
  unfold run_backup, try_except. cbn [run]. rewrite run_bind.
  destruct (run (create_backup src dest) w) as [w1 [[]|e]]; [|done].
  rewrite run_bind. cbn [run logging]. cbv zeta.
  set (wa := add_log (BackupCreated src dest) w1).
  rewrite run_bind.
  pose proof (parse_ages_world int_strip (split "," max_ages) wa) as Hw.
  destruct (run (parse_ages int_strip (split "," max_ages)) wa) as [w2 [ages|e]];
    simpl in Hw; subst w2; [|done].
  cbn [snd]. rewrite run_bind. cbn [run iterdir_dirs]. rewrite run_bind.
  unfold call_clean_dates. cbn [run].
  change (entries wa) with (entries w1).
  change (wall wa (reads wa)) with (wall w1 (reads w1)).
  fold (dirs w1).
  destruct (clean_dates (wall w1 (reads w1)) (dirs w1) None ages)
    as [backups [to_keep|e]]; [|done].
  by destruct (run (prune to_keep backups) (tick wa)) as [w' [[]|e]].
Qed.

(** Whatever happens, a pruning pass adds no entry, removes only listed
    directories that are not retained, and changes no lock. *)
Lemma prune_frame (to_keep l : list string) (w : world) :
  locked (run (prune to_keep l) w).1 = locked w ∧
  (∀ e, e ∈ entries (run (prune to_keep l) w).1 → e ∈ entries w) ∧
  (∀ e, e ∈ entries w → e ∉ entries (run (prune to_keep l) w).1 →
        ∃ x, e = (x, true) ∧ x ∈ l ∧ x ∉ to_keep).
Proof.
  revert w. induction l as [|x l IH]; intros w; [by split_and!|].
  cbn [prune]. rewrite run_bind.
  destruct (decide (x ∈ to_keep)) as [Hk|Hk].
  - cbn [run mret M_ret]. destruct (IH w) as (Hl & Hin & Hout).
    split; [done|]. split; [done|].
    intros e He Hne. destruct (Hout e He Hne) as (y & -> & Hy & Hy').
    exists y. split; [done|]. split; [by right|done].
  - rewrite run_bind. unfold rmtree at 1 2 3. cbn [run].
    destruct (decide (x ∈ locked w)) as [?|_]; [by split_and!|].
    destruct (decide ((x, true) ∈ entries w)) as [Hx|?]; [|by split_and!].
    cbn [run logging]. set (w1 := add_log _ _).
    destruct (IH w1) as (Hl & Hin & Hout).
    split; [done|]. split.
    + intros e He. apply Hin in He. unfold w1 in He.
      cbn [entries add_log set_entries] in He.
      by apply list_elem_of_filter in He as [_ ?].
    + intros e He Hne. destruct (decide (e = (x, true))) as [->|Hex].
      * exists x. split; [done|]. split; [by left|done].
      * destruct (Hout e) as (y & -> & Hy & Hy'); [|done|].
        { unfold w1. cbn [entries add_log set_entries].
          by apply list_elem_of_filter. }
        exists y. split; [done|]. split; [by right|done].
Qed.

Lemma clean_dates_return_subset (clock : datetime) (dates : list string)
  (now : option datetime) (max_ages : list Z) (r : list string) :
  (clean_dates clock dates now max_ages).2 = Return r →
  ∀ x, x ∈ r → x ∈ dates.
Proof.
  intros Hr x Hx. destruct (decide (Forall well_formed dates)) as [W|W].
  - by apply (clean_dates_subset clock dates now max_ages r).
  - assert (¬ Forall well_formed (sort_strings dates)) as W'
      by by rewrite sort_strings_perm.
    destruct (buckets_ill_formed _ W') as (d & _ & _ & Hraise).
    unfold clean_dates in Hr. cbn [snd] in Hr.
    destruct max_ages as [|a rest]; [|by rewrite Hraise in Hr].
    simpl in Hr. injection Hr as <-.
    rewrite elem_of_sorted_set in Hx. unfold last5 in Hx.
    rewrite <- (sort_strings_perm dates).
    eapply elem_of_submseteq; [exact Hx|apply submseteq_drop].
Qed.


Lemma parse_ages_returns (int_strip : string → option Z) (pieces : list string)
  (w : world) :
  Forall (λ p, is_Some (int_strip p)) pieces →
  ∃ ages, (run (parse_ages int_strip pieces) w).2 = Return ages ∧
          Forall2 (λ p a, int_strip p = Some a) pieces ages.
Proof.
  induction 1 as [|p ps [a Ha] _ (ages & Hr & F)]; simpl.
  - by exists [].
  - rewrite Ha, run_bind.
    destruct (run (parse_ages int_strip ps) w) as [w' [r|e]]; simpl in *; [|done].
    injection Hr as ->. exists (a :: ages). split; [done|]. by constructor.
Qed.

Lemma create_backup_new_entry (src dest : string) (w w1 : world) :
  run (create_backup src dest) w = (w1, Return ()) →
  (strftime (wall w (reads w)), true) ∈ entries w1.
Proof.
  unfold create_backup. rewrite run_bind. cbn [run datetime_now].
  change (source (tick w)) with (source w).
  destruct (source w); [| |done]; rewrite run_bind; unfold make_dir; cbn [run];
    change (entries (tick w)) with (entries w);
    change (writable (tick w)) with (writable w).
  - destruct (decide _) as [Hin|Hin]; simpl.
    + destruct (disk_full w); [done|]. by intros [= <-].
    + destruct (decide _); [done|].
      destruct (writable w); [|done]. simpl.
      destruct (disk_full w); [done|]. intros [= <-]. simpl.
      apply elem_of_app. right. by left.
  - destruct (decide _) as [Hin|Hin]; simpl; [done|].
    destruct (decide _); [done|].
    destruct (writable w); [|done]. simpl.
    destruct (disk_full w); [done|]. intros [= <-]. simpl.
    apply elem_of_app. right. by left.
Qed.

Lemma entries_are_dirs (es : list (string * bool)) (x : string) :
  (x, true) ∈ es → x ∈ (filter (λ e, e.2 = true) es).*1.
Proof.
  intros H. apply list_elem_of_fmap. exists (x, true). split; [done|].
  by apply list_elem_of_filter.
Qed.


(** ** Dates from day numbers: [date.fromordinal] and [datetime + timedelta] *)

Lemma year_of_cycles (a b c d : Z) :
  0 ≤ a → 0 ≤ b ≤ 3 → 0 ≤ c ≤ 24 → 0 ≤ d ≤ 3 →
  days_before_year (400 * a + 100 * b + 4 * c + d + 1)
  = 146097 * a + 36524 * b + 1461 * c + 365 * d ∧
  is_leap (400 * a + 100 * b + 4 * c + d + 1)
  = (d =? 3) && (negb (c =? 24) || (b =? 3)).
Proof.
  intros Ha Hb Hc Hd. split.
  - unfold days_before_year. div_lia.
  - unfold is_leap.
    destruct (Z.eqb_spec d 3), (Z.eqb_spec c 24), (Z.eqb_spec b 3); simpl;
      repeat match goal with
      | |- context [?x =? 0] => destruct (Z.eqb_spec x 0)
      end; simpl; try done; exfalso; div_lia.
Qed.

Lemma ord2ymd_spec (n : Z) :
  1 ≤ n ≤ MAXORDINAL →
  ∃ y m d, ord2ymd n = (y, m, d) ∧
           1 ≤ y ≤ 9999 ∧ 1 ≤ m ≤ 12 ∧ 1 ≤ d ≤ days_in_month y m ∧
           days_before_year y + days_before_month y m + d = n.
Proof.
  unfold MAXORDINAL. intros Hn. unfold ord2ymd.
  set (a := (n - 1) / 146097). set (r1 := (n - 1) mod 146097).
  set (b := r1 / 36524). set (r2 := r1 mod 36524).
  set (c := r2 / 1461). set (r3 := r2 mod 1461).
  set (d := r3 / 365). set (e := r3 mod 365).
  assert (n - 1 = 146097 * a + r1 ∧ 0 ≤ r1 < 146097) as [E1 B1]
    by (unfold a, r1; div_lia).
  assert (r1 = 36524 * b + r2 ∧ 0 ≤ r2 < 36524) as [E2 B2]
    by (unfold b, r2; div_lia).
  assert (r2 = 1461 * c + r3 ∧ 0 ≤ r3 < 1461) as [E3 B3]
    by (unfold c, r3; div_lia).
  assert (r3 = 365 * d + e ∧ 0 ≤ e < 365) as [E4 B4]
    by (unfold d, e; div_lia).
  clearbody a r1 b r2 c r3 d e.
  assert (0 ≤ a ≤ 24 ∧ 0 ≤ b ≤ 4 ∧ 0 ≤ c ≤ 24 ∧ 0 ≤ d ≤ 4) as (Ba & Bb & Bc & Bd) by lia.
  destruct (Z.eqb_spec b 4) as [Eb|Nb].
  { rewrite orb_true_r. eexists _, _, _. split; [reflexivity|].
    replace (a * 400 + 1 + b * 100 + c * 4 + d - 1)
      with (400 * a + 100 * 3 + 4 * 24 + 3 + 1) by lia.
    destruct (year_of_cycles a 3 24 3) as [Hdby Hleap]; [lia..|].
    rewrite Hdby. unfold days_before_month, days_in_month. rewrite Hleap. simpl. lia. }
  destruct (Z.eqb_spec d 4) as [Ed|Nd].
  { simpl. eexists _, _, _. split; [reflexivity|].
    replace (a * 400 + 1 + b * 100 + c * 4 + d - 1)
      with (400 * a + 100 * b + 4 * c + 3 + 1) by lia.
    destruct (year_of_cycles a b c 3) as [Hdby Hleap]; [lia..|].
    rewrite Hdby. unfold days_before_month, days_in_month. rewrite Hleap.
    destruct (Z.eqb_spec c 24); [lia|]. simpl. lia. }
  simpl.
  replace (a * 400 + 1 + b * 100 + c * 4 + d)
    with (400 * a + 100 * b + 4 * c + d + 1) by lia.
  destruct (year_of_cycles a b c d) as [Hdby Hleap]; [lia..|].
  set (Y := 400 * a + 100 * b + 4 * c + d + 1) in *.
  set (L := (d =? 3) && (negb (c =? 24) || (b =? 3))) in *.
  rewrite Z.shiftr_div_pow2 by lia. change (2 ^ 5) with 32.
  set (m := (e + 50) / 32).
  assert (32 * m ≤ e + 50 < 32 * m + 32) as Hm by (unfold m; div_lia).
  clearbody m. assert (1 ≤ m ≤ 12) as Bm by lia.
  assert (1 ≤ Y ≤ 9999) as BY by (unfold Y; lia).
  clearbody L Y.
  destruct (month_cases m Bm) as [->|[->|[->|[->|[->|[->|[->|[->|[->|[->|[->| ->]]]]]]]]]]];
    destruct L; simpl;
    repeat match goal with
    | |- context [?x <? ?y] => destruct (Z.ltb_spec x y)
    end; simpl; eexists _, _, _; (split; [reflexivity|]);
    unfold days_before_month, days_in_month; rewrite Hleap, Hdby; simpl; lia.
Qed.

Lemma timedelta_new_spec (d s u : Z) :
  total_us (timedelta_new d s u) = (d * 86400 + s) * 1000000 + u ∧
  0 ≤ seconds (timedelta_new d s u) < 86400 ∧
  0 ≤ microseconds (timedelta_new d s u) < 1000000.
Proof. unfold total_us, timedelta_new. simpl. div_lia. Qed.

Lemma datetime_add_spec (t t' : datetime) (d : timedelta) :
  valid t → datetime_add t d = Some t' →
  valid t' ∧ instant t' = instant t + total_us d.
Proof.
  intros V. unfold datetime_add.
  set (delta := timedelta_add _ _).
  assert (total_us delta = instant t + total_us d ∧
          0 ≤ seconds delta < 86400 ∧ 0 ≤ microseconds delta < 1000000)
    as (Ht & Hs & Hu).
  { unfold delta, timedelta_add.
    destruct (timedelta_new_spec (toordinal t)
                (hour t * 3600 + minute t * 60 + second t) (microsecond t))
      as (H1 & _ & _).
    set (d0 := timedelta_new _ _ _) in *.
    destruct (timedelta_new_spec (days d0 + days d) (seconds d0 + seconds d)
                (microseconds d0 + microseconds d)) as (H2 & H3 & H4).
    split; [|done]. rewrite H2. unfold total_us in H1 |- *. unfold instant. lia. }
  clearbody delta.
  destruct (Z.ltb_spec 0 (days delta)); [|done].
  destruct (Z.leb_spec (days delta) MAXORDINAL); [|done]. simpl.
  destruct (ord2ymd_spec (days delta)) as (y & m & dd & -> & Hy & Hm & Hd & Hord);
    [lia|].
  intros [= <-]. split.
  - constructor; simpl; try done; div_lia.
  - rewrite <- Ht. unfold instant, toordinal, total_us. simpl. rewrite Hord. div_lia.
Qed.

Lemma datetime_add_in_range (t : datetime) (d : timedelta) :
  valid t →
  usec_per_day ≤ instant t + total_us d < (MAXORDINAL + 1) * usec_per_day →
  is_Some (datetime_add t d).
Proof.
  intros V. unfold usec_per_day, MAXORDINAL. intros Hr. unfold datetime_add.
  set (delta := timedelta_add _ _).
  assert (total_us delta = instant t + total_us d ∧
          0 ≤ seconds delta < 86400 ∧ 0 ≤ microseconds delta < 1000000)
    as (Ht & Hs & Hu).
  { unfold delta, timedelta_add.
    destruct (timedelta_new_spec (toordinal t)
                (hour t * 3600 + minute t * 60 + second t) (microsecond t))
      as (H1 & _ & _).
    set (d0 := timedelta_new _ _ _) in *.
    destruct (timedelta_new_spec (days d0 + days d) (seconds d0 + seconds d)
                (microseconds d0 + microseconds d)) as (H2 & H3 & H4).
    split; [|done]. rewrite H2. unfold total_us in H1 |- *. unfold instant. lia. }
  clearbody delta. unfold total_us in Ht, Hr.
  destruct (Z.ltb_spec 0 (days delta)); [|exfalso; lia].
  destruct (Z.leb_spec (days delta) MAXORDINAL);
    [|exfalso; unfold MAXORDINAL in *; lia].
  simpl. by destruct (ord2ymd (days delta)) as [[y m] dd].
Qed.

Lemma total_us_hours (d h : Z) :
  total_us (timedelta_of d h) = d * usec_per_day + h * usec_per_hour.
Proof.
  unfold timedelta_of, usec_per_day, usec_per_hour.
  destruct (timedelta_new_spec d (h * 3600) 0) as (-> & _). lia.
Qed.

Lemma instant_bounds (t : datetime) :
  valid t →
  (days_before_year (year t) + 1) * usec_per_day ≤ instant t
  ∧ instant t < (days_before_year (year t + 1) + 1) * usec_per_day.
Proof.
  intros [Hy Hm Hd Hh Hn Hs Hu]. unfold instant, toordinal, usec_per_day.
  pose proof (days_before_month_end (year t) (month t) Hm).
  destruct (is_leap_cases (year t)) as [[E ?]|[E ?]]; rewrite E in *; lia.
Qed.

Lemma stamp_strftime (t : datetime) :
  valid t → well_formed (strftime t) ∧ stamp (strftime t) = instant t - microsecond t.
Proof.
  intros V. pose proof (strptime_strftime t V) as H. split; [by eexists|].
  unfold stamp. rewrite H. unfold instant, toordinal. simpl. lia.
Qed.

(** Adding whole hours: the result is valid, lies the hours later, and has
    the same microseconds. *)
Lemma add_hours (t : datetime) (d h : Z) :
  valid t →
  usec_per_day ≤ instant t + d * usec_per_day + h * usec_per_hour
    < (MAXORDINAL + 1) * usec_per_day →
  ∃ t', datetime_add t (timedelta_of d h) = Some t' ∧ valid t' ∧
        instant t' = instant t + d * usec_per_day + h * usec_per_hour ∧
        microsecond t' = microsecond t.
Proof.
  intros V Hr.
  destruct (datetime_add_in_range t (timedelta_of d h) V) as [t' Ht'].
  { rewrite total_us_hours. lia. }
  destruct (datetime_add_spec t t' _ V Ht') as [V' Hi].
  rewrite total_us_hours in Hi.
  exists t'. split; [done|]. split; [done|]. split; [lia|].
  destruct V as [_ _ _ _ _ _ Hu], V' as [_ _ _ _ _ _ Hu'].
  revert Hi. unfold instant, usec_per_day, usec_per_hour.
  generalize (((toordinal t' * 24 + hour t') * 60 + minute t') * 60 + second t').
  generalize (((toordinal t * 24 + hour t) * 60 + minute t) * 60 + second t).
  intros; lia.
Qed.

Lemma Forall2_mapM_impl {A B} (f : A → option B) (P : A → Prop)
  (Q : A → B → Prop) (l : list A) :
  Forall P l → (∀ x, P x → ∃ y, f x = Some y ∧ Q x y) →
  ∃ k, mapM f l = Some k ∧ Forall2 Q l k.
Proof.
  intros F H. induction F as [|x l Px _ (k & Hk & F2)].
  - by exists [].
  - destruct (H x Px) as (y & Hy & Qy). exists (y :: k). split.
    + apply mapM_Some. constructor; [done|]. by apply mapM_Some.
    + by constructor.
Qed.

Lemma Forall2_sorted {A B} (R : relation A) (S : relation B)
  (Q : A → B → Prop) (l : list A) (k : list B) :
  (∀ x x' y y', Q x y → Q x' y' → R x x' → S y y') →
  Forall2 Q l k → StronglySorted R l → StronglySorted S k.
Proof.
  intros H F. induction F as [|x y l k Qxy F IH]; intros Sl; [constructor|].
  apply StronglySorted_cons in Sl as [Hx Sl]. constructor; [by apply IH|].
  clear IH Sl. induction F as [|x' y' l k Q' F IH]; [constructor|].
  apply Forall_cons in Hx as [Hxx Hx]. constructor; [by eapply H|by apply IH].
Qed.

Lemma seqZ_sorted (m n : Z) : StronglySorted Z.lt (seqZ m n).
Proof.
  destruct (Z.le_gt_cases n 0) as [Hn|Hn]; [rewrite seqZ_nil by done; constructor|].
  rewrite <- (Z2Nat.id n) by lia. generalize (Z.to_nat n). clear n Hn. intros k.
  revert m. induction k as [|k IH]; intros m; [constructor|].
  rewrite seqZ_cons by lia. constructor.
  - replace (Z.pred (Z.of_nat (S k))) with (Z.of_nat k) by lia. apply IH.
  - apply Forall_seqZ. lia.
Qed.

Lemma generate_test_dates_spec (num_dates : Z) (base_date : datetime) :
  valid base_date →
  usec_per_day ≤ instant base_date →
  instant base_date + (num_dates - 1) * usec_per_hour
    < (MAXORDINAL + 1) * usec_per_day →
  ∃ l, generate_test_dates num_dates base_date = Some l ∧
       Forall2 (λ i d, well_formed d ∧
                       stamp d = instant base_date - microsecond base_date
                                 + i * usec_per_hour)
               (seqZ 0 num_dates) l.
Proof.
  intros V Hlo Hhi. unfold generate_test_dates.
  apply (Forall2_mapM_impl _ (λ i, 0 ≤ i < num_dates)).
  { apply Forall_seqZ. lia. }
  intros i Hi.
  destruct (add_hours base_date 0 i V) as (t' & -> & V' & Hinst & Hus).
  { unfold usec_per_hour, usec_per_day, MAXORDINAL in *. lia. }
  exists (strftime t'). split; [done|].
  destruct (stamp_strftime t' V') as [W ->]. split; [done|]. lia.
Qed.

Lemma total_us_neg (d : timedelta) : total_us (timedelta_neg d) = - total_us d.
Proof.
  unfold timedelta_neg.
  destruct (timedelta_new_spec (- days d) (- seconds d) (- microseconds d))
    as (-> & _). unfold total_us. lia.
Qed.

Lemma simulation_loop_spec (steps : nat) (now : datetime) (dates : list string) :
  valid now → usec_per_day ≤ instant now →
  instant now + Z.of_nat steps * usec_per_hour < (MAXORDINAL + 1) * usec_per_day →
  Forall well_formed dates → NoDup dates →
  (∀ x, x ∈ dates → stamp x ≤ instant now) →
  ∃ now' l, simulation_loop steps now dates = Some (now', l) ∧
            valid now' ∧
            instant now' = instant now + Z.of_nat steps * usec_per_hour ∧
            Forall well_formed l ∧ NoDup l ∧
            (min 5 (length dates + steps) ≤ length l)%nat ∧
            (steps = 0%nat → l = dates) ∧
            (1 ≤ steps → length l ≤ 8 ∧ strftime now' ∈ l)%nat.
Proof.
  unfold usec_per_hour, usec_per_day, MAXORDINAL.
  revert now dates. induction steps as [|steps IH]; intros now dates V Hlo Hhi W N Hold.
  - exists now, dates. split; [done|]. split; [done|]. split; [simpl; lia|].
    split; [done|]. split; [done|]. split; [lia|]. split; [done|lia].
  - cbn [simulation_loop].
    destruct (add_hours now 0 1 V) as (now1 & -> & V1 & Hi1 & Hu1).
    { unfold usec_per_hour, usec_per_day, MAXORDINAL in *. lia. }
    unfold usec_per_hour, usec_per_day in Hi1.
    cbn [mbind option_bind].
    set (new := strftime now1).
    destruct (stamp_strftime now1 V1) as [Wnew Hnew]. fold new in Wnew, Hnew.
    assert (0 ≤ microsecond now1 < 1000000) as Hus
      by (destruct V1 as [_ _ _ _ _ _ ?]; lia).
    assert (∀ x, x ∈ dates → stamp x < stamp new) as Hfresh.
    { intros x Hx. specialize (Hold x Hx). lia. }
    assert (NoDup (dates ++ [new])) as N1.
    { apply NoDup_app. split; [done|]. split; [|apply NoDup_singleton].
      intros x Hx ->%list_elem_of_singleton. specialize (Hfresh new Hx). lia. }
    assert (Forall well_formed (dates ++ [new])) as W1.
    { apply Forall_app. split; [done|]. by constructor. }
    destruct (clean_dates_bounds now1 (dates ++ [new]) (Some now1) [2; 14; 60] N1 W1)
      as (r & Hr & Hsub & Nr & Hup & Hlow).
    destruct (clean_dates_spec now1 (dates ++ [new]) (Some now1) [2; 14; 60] W1)
      as (r' & Hr' & _ & _ & Hmem).
    rewrite Hr in Hr'. injection Hr' as <-. rewrite Hr.
    assert (new ∈ r) as Hnr.
    { apply Hmem. left. split; [apply elem_of_app; right; by left|].
      rewrite filter_none; [simpl; lia|].
      apply Forall_forall. intros y [Hy| ->%list_elem_of_singleton]%elem_of_app.
      - specialize (Hfresh y Hy). lia.
      - lia. }
    destruct (IH now1 r) as (now' & l & Hl & V' & Hi' & Wl & Nl & Hlen & _ & Hpos).
    { done. }
    { lia. }
    { lia. }
    { rewrite Forall_forall in W1 |- *. auto. }
    { done. }
    { intros x [Hx| ->%list_elem_of_singleton]%Hsub%elem_of_app.
      - specialize (Hold x Hx). lia.
      - lia. }
    exists now', l. split; [done|]. split; [done|]. split; [lia|].
    split; [done|]. split; [done|].
    rewrite length_app in Hlow. simpl in Hlow, Hup.
    split; [lia|]. split; [done|]. intros _.
    destruct steps as [|steps].
    + simpl in Hl. injection Hl as E1 E2. subst now' l. split; [lia|done].
    + apply Hpos. lia.
Qed.

Lemma instant_year_range (t : datetime) :
  valid t → 2 ≤ year t ≤ 9998 →
  366 * usec_per_day ≤ instant t ∧
  instant t + 8760 * usec_per_hour < (MAXORDINAL + 1) * usec_per_day.
Proof.
  intros V Hy. destruct (instant_bounds t V) as [Hlo Hhi].
  pose proof (days_before_year_mono 2 (year t)) as H1.
  pose proof (days_before_year_mono (year t + 1) 9999) as H2.
  change (days_before_year 2) with 365 in H1.
  change (days_before_year 9999) with 3651694 in H2.
  unfold usec_per_day, usec_per_hour, MAXORDINAL in *. lia.
Qed.

Lemma Forall2_length_lookup {A B} (Q : A → B → Prop) (l : list A) (k : list B) :
  Forall2 Q l k → length k = length l.
Proof. intros F. symmetry. by eapply Forall2_length. Qed.

(** * Part III: the properties C1 to C10 *)

(** C1. In the scenario of the documentation (eight identifiers, [now] =
    2024-11-15 14:03:22, thresholds 2, 14 and 60 days) the selector returns
    seven identifiers: exactly those that are among the five latest, or the
    earliest one under 60 days, or the earliest one under 14 days (ages
    truncated to whole days); the earliest one under 2 days is already among
    the five latest.  The identifiers may be listed in any order. *)
Theorem scenario_keep_set (clock : datetime) (dates : list string) :
  dates ≡ₚ scenario →
  ∃ r, (clean_dates clock dates (Some scenario_now) [2; 14; 60]).2 = Return r ∧
       r = scenario_keep ∧
       (∀ x, x ∈ r ↔
             among_latest 5 scenario x ∨
             earliest_under spec_age scenario_now 60 scenario x ∨
             earliest_under spec_age scenario_now 14 scenario x) ∧
       (∀ x, earliest_under spec_age scenario_now 2 scenario x →
             among_latest 5 scenario x).
Proof.
  intros E. rewrite (clean_dates_perm _ _ _ _ _ E).
  exists scenario_keep. split; [by vm_compute|]. split; [done|].
  assert (Forall (λ x,
            (x ∈ scenario_keep ↔
               among_latest 5 scenario x ∨
               earliest_under spec_age scenario_now 60 scenario x ∨
               earliest_under spec_age scenario_now 14 scenario x) ∧
            (earliest_under spec_age scenario_now 2 scenario x →
             among_latest 5 scenario x)) scenario) as H
    by by apply (bool_decide_unpack _); vm_compute.
  rewrite Forall_forall in H.
  assert (Forall (λ x, x ∈ scenario) scenario_keep) as Hsub
    by by apply (bool_decide_unpack _); vm_compute.
  rewrite Forall_forall in Hsub.
  split.
  - intros x. destruct (decide (x ∈ scenario)) as [Hx|Hx]; [by apply H|].
    split; [intros Hk; by destruct Hx; apply Hsub|].
    intros [[? _]|[[? _]|[? _]]]; done.
  - intros x Hx. pose proof Hx as [Hin _]. by apply H.
Qed.

Lemma scenario_keep_set_witness :
  reverse scenario ≡ₚ scenario ∧
  ∃ r, (clean_dates later_clock (reverse scenario) (Some scenario_now)
          [2; 14; 60]).2 = Return r ∧
       r = scenario_keep ∧
       (∀ x, x ∈ r ↔
             among_latest 5 scenario x ∨
             earliest_under spec_age scenario_now 60 scenario x ∨
             earliest_under spec_age scenario_now 14 scenario x) ∧
       (∀ x, earliest_under spec_age scenario_now 2 scenario x →
             among_latest 5 scenario x).
Proof.
  assert (reverse scenario ≡ₚ scenario) as E
    by (apply (bool_decide_unpack _); vm_compute; exact I).
  split; [exact E|]. exact (scenario_keep_set later_clock (reverse scenario) E).
Defined.

(** C2, as stated, fails.  With the age truncated to whole days, six
    identifiers of the hours after [now] have age 0, none is under the
    threshold 0, and the bucket should add nothing to the five latest; the
    code floors the age to -1 and keeps the earliest of the six as well. *)
Lemma truncated_age_bucket_fails :
  Forall well_formed morning ∧
  ¬ bucket_rule spec_age midnight morning (Some midnight) [0].
Proof.
  split; [exact morning_well_formed|].
  intros (r & Hr & _ & _ & Hall). vm_compute in Hr. injection Hr as <-.
  destruct (Hall "20241115_010000"%string) as [H|(a & Ha & H)].
  - by apply (bool_decide_unpack _); vm_compute.
  - revert H. by apply (bool_decide_unpack _); vm_compute.
  - apply list_elem_of_singleton in Ha as ->.
    revert H. by apply (bool_decide_unpack _); vm_compute.
Qed.

(** C2, amended.  For well-formed identifiers and every threshold [a] of
    [max_ages], with the age of an identifier being the whole days from its
    instant to [now] rounded toward minus infinity (the [days] field of the
    difference): the call returns; the earliest identifier with age under
    [a] exists whenever some identifier has age under [a], and is in the
    result; and the result holds nothing but such representatives and the
    five latest identifiers, so a threshold without an identifier under it
    adds nothing.  Rounding down and truncation select the same identifiers
    when [a >= 1] or the identifier is not later than [now]; so with every
    threshold at least 1, or no identifier later than [now], the rule holds
    for truncated ages as well. *)
Theorem bucket_representatives (clock : datetime) (dates : list string)
  (now : option datetime) (max_ages : list Z) :
  Forall well_formed dates →
  bucket_rule code_age clock dates now max_ages ∧
  (∀ d, d ∈ dates →
     code_age (default clock now) d
     = (instant (default clock now) - stamp d) / usec_per_day) ∧
  (∀ a d, d ∈ dates → 1 ≤ a ∨ stamp d ≤ instant (default clock now) →
     spec_age (default clock now) d < a ↔ code_age (default clock now) d < a) ∧
  ((∀ a, a ∈ max_ages → 1 ≤ a) ∨
   (∀ d, d ∈ dates → stamp d ≤ instant (default clock now)) →
   bucket_rule spec_age clock dates now max_ages).
Proof.
  intros W. pose proof (bucket_rule_code_age clock dates now max_ages W) as Hrule.
  split; [done|]. rewrite Forall_forall in W. split; [|split].
  - intros d Hd. apply code_age_floor; auto.
  - intros a d Hd Ha. apply spec_age_code_age; auto.
  - intros Hcond.
    assert (∀ a x, a ∈ max_ages →
              earliest_under spec_age (default clock now) a dates x
              ↔ earliest_under code_age (default clock now) a dates x) as Hext.
    { intros a x Ha. apply earliest_under_ext. intros y Hy.
      apply spec_age_code_age; [auto|]. destruct Hcond as [Hc|Hc]; auto. }
    destruct Hrule as (r & Hr & Hin & Hex & Hall).
    exists r. split; [done|]. split; [|split].
    + intros a x Ha Hx. apply (Hin a); [done|]. by apply Hext.
    + intros a y Ha Hy Hage.
      destruct (Hex a y Ha Hy) as [x Hx].
      { apply spec_age_code_age in Hage; [done|auto|].
        destruct Hcond as [Hc|Hc]; auto. }
      exists x. by apply Hext.
    + intros x Hx. destruct (Hall x Hx) as [?|(a & Ha & Hx')]; [by left|right].
      exists a. split; [done|]. by apply Hext.
Qed.

Lemma bucket_representatives_witness :
  Forall well_formed morning ∧
  (bucket_rule code_age midnight morning (Some midnight) [0] ∧
   (∀ d, d ∈ morning →
      code_age (default midnight (Some midnight)) d
      = (instant (default midnight (Some midnight)) - stamp d) / usec_per_day) ∧
   (∀ a d, d ∈ morning →
      1 ≤ a ∨ stamp d ≤ instant (default midnight (Some midnight)) →
      spec_age (default midnight (Some midnight)) d < a
      ↔ code_age (default midnight (Some midnight)) d < a) ∧
   ((∀ a, a ∈ [0] → 1 ≤ a) ∨
    (∀ d, d ∈ morning → stamp d ≤ instant (default midnight (Some midnight))) →
    bucket_rule spec_age midnight morning (Some midnight) [0])).
Proof.
  assert (Forall well_formed morning) as W
    by by apply (bool_decide_unpack _); vm_compute.
  split; [exact W|].
  exact (bucket_representatives midnight morning (Some midnight) [0] W).
Defined.

(** C3. For well-formed identifiers the five chronologically latest ones
    are all in the result, whatever [now] and [max_ages] are; when the input
    has at most five identifiers (in particular fewer than five), every one
    of them is in the result. *)
Theorem recent_preservation (clock : datetime) (dates : list string)
  (now : option datetime) (max_ages : list Z) :
  Forall well_formed dates →
  ∃ r, (clean_dates clock dates now max_ages).2 = Return r ∧
       (∀ x, among_latest 5 dates x → x ∈ r) ∧
       ((length dates ≤ 5)%nat → ∀ x, x ∈ dates → x ∈ r).
Proof.
  intros W. destruct (clean_dates_spec clock dates now max_ages W)
    as (r & Hr & _ & _ & Hmem).
  exists r. split; [done|]. split.
  - intros x Hx. apply Hmem. by left.
  - intros Hlen x Hx. apply Hmem. left. by apply among_latest_short.
Qed.

Lemma recent_preservation_witness :
  Forall well_formed scenario ∧
  ∃ r, (clean_dates later_clock scenario None [2; 14; 60]).2 = Return r ∧
       (∀ x, among_latest 5 scenario x → x ∈ r) ∧
       ((length scenario ≤ 5)%nat → ∀ x, x ∈ scenario → x ∈ r).
Proof.
  assert (Forall well_formed scenario) as W
    by by apply (bool_decide_unpack _); vm_compute.
  split; [exact W|].
  exact (recent_preservation later_clock scenario None [2; 14; 60] W).
Defined.

(** C4. Reordering [max_ages] (duplicates and nested thresholds included)
    changes nothing: the call returns the same keep-set, or raises the same
    exception, and leaves the argument list in the same state. *)
Theorem max_ages_order_independent (clock : datetime) (dates : list string)
  (now : option datetime) (max_ages max_ages' : list Z) :
  max_ages ≡ₚ max_ages' →
  clean_dates clock dates now max_ages = clean_dates clock dates now max_ages'.
Proof.
  intros E. destruct (decide (Forall well_formed dates)) as [W|W].
  - rewrite !clean_dates_well_formed by done. do 2 f_equal.
    apply sorted_set_perm. by rewrite E.
  - assert (¬ Forall well_formed (sort_strings dates)) as W'
      by by rewrite sort_strings_perm.
    destruct (buckets_ill_formed _ W') as (d & _ & _ & Hraise).
    unfold clean_dates. f_equal.
    destruct max_ages as [|a rest], max_ages' as [|a' rest']; [done| | |].
    + by apply Permutation_nil_cons in E.
    + symmetry in E. by apply Permutation_nil_cons in E.
    + by rewrite !Hraise.
Qed.

Lemma max_ages_order_independent_witness :
  [2; 14; 60; 14] ≡ₚ [14; 60; 14; 2] ∧
  clean_dates later_clock scenario (Some scenario_now) [2; 14; 60; 14]
  = clean_dates later_clock scenario (Some scenario_now) [14; 60; 14; 2].
Proof.
  assert ([2; 14; 60; 14] ≡ₚ [14; 60; 14; 2]) as E
    by (apply (bool_decide_unpack _); vm_compute; exact I).
  split; [exact E|].
  exact (max_ages_order_independent later_clock scenario (Some scenario_now) _ _ E).
Defined.

(** C5, as stated, fails: with [now] omitted the function reads the wall
    clock, and two calls with the same arguments return different keep-sets
    when the clock differs. *)
Lemma omitted_now_reads_the_clock :
  (clean_dates scenario_now scenario None [2; 14; 60]).2
  ≠ (clean_dates later_clock scenario None [2; 14; 60]).2.
Proof. by vm_compute. Qed.

(** C5, amended.  When the caller supplies [now], the result and the final
    state of the argument depend on the identifiers, [now] and [max_ages]
    only: not on the wall clock, and not on the order in which the
    identifiers are listed.  When [now] is omitted, the call is the call
    with [now] set to the reading of the wall clock. *)
Theorem explicit_now_deterministic (clock clock' : datetime)
  (dates : list string) (now : datetime) (max_ages : list Z) :
  clean_dates clock dates (Some now) max_ages
  = clean_dates clock' dates (Some now) max_ages ∧
  (∀ dates', dates ≡ₚ dates' →
     clean_dates clock dates (Some now) max_ages
     = clean_dates clock' dates' (Some now) max_ages) ∧
  clean_dates clock dates None max_ages
  = clean_dates clock' dates (Some clock) max_ages.
Proof.
  split; [done|]. split; [|done].
  intros dates' E. by rewrite (clean_dates_perm _ _ _ _ _ E).
Qed.

(** C6, as stated, fails: the call sorts the caller's list in place. *)
Lemma argument_is_reordered :
  (clean_dates later_clock (reverse scenario) (Some scenario_now) [2; 14; 60]).1
  ≠ reverse scenario.
Proof. by vm_compute. Qed.

(** C6, amended.  The only effect of the call on its argument is
    [dates.sort()]: when the call ends (by returning or by raising) the list
    holds the same elements in ascending order; it is unchanged exactly when
    it was sorted already. *)
Theorem argument_is_sorted_in_place (clock : datetime) (dates : list string)
  (now : option datetime) (max_ages : list Z) :
  (clean_dates clock dates now max_ages).1 ≡ₚ dates ∧
  Sorted str_le (clean_dates clock dates now max_ages).1 ∧
  ((clean_dates clock dates now max_ages).1 = dates ↔ Sorted str_le dates).
Proof.
  simpl. split; [apply sort_strings_perm|].
  split; [apply Sorted_merge_sort, _|]. split.
  - intros <-. apply Sorted_merge_sort, _.
  - apply sort_strings_id.
Qed.

(** C7. For distinct well-formed identifiers the call returns a list that
    is a subset of the input, has no duplicates, has at most
    [len(max_ages) + 5] and at least [min(5, len(dates))] elements.  So in a
    run that appends one new identifier per step and re-runs the selector on
    its previous output, after any number of steps the retained list has at
    most [max(len(initial), len(max_ages) + 5)] elements, at most
    [len(max_ages) + 5] once a step was made, and at least
    [min(5, identifiers created so far)]. *)
Theorem keep_set_size_bounds (clock : datetime) (dates : list string)
  (now : option datetime) (max_ages : list Z) (steps : list (datetime * string)) :
  NoDup (dates ++ steps.*2) → Forall well_formed (dates ++ steps.*2) →
  (∃ r, (clean_dates clock dates now max_ages).2 = Return r ∧
        (∀ x, x ∈ r → x ∈ dates) ∧ NoDup r ∧
        (length r ≤ length max_ages + 5)%nat ∧
        (min 5 (length dates) ≤ length r)%nat) ∧
  (∃ r, simulate max_ages steps dates = Return r ∧
        (∀ x, x ∈ r → x ∈ dates ++ steps.*2) ∧ NoDup r ∧
        (length r ≤ max (length dates) (length max_ages + 5))%nat ∧
        (steps ≠ [] → length r ≤ length max_ages + 5)%nat ∧
        (min 5 (length dates + length steps) ≤ length r)%nat).
Proof.
  intros N W. split; [|by apply simulate_bounds].
  apply NoDup_app in N as (N & _ & _). apply Forall_app in W as [W _].
  by apply clean_dates_bounds.
Qed.

Lemma keep_set_size_bounds_witness :
  (NoDup (scenario ++ sample_steps.*2) ∧
   Forall well_formed (scenario ++ sample_steps.*2)) ∧
  (∃ r, (clean_dates later_clock scenario (Some scenario_now) [2; 14; 60]).2
        = Return r ∧
        (∀ x, x ∈ r → x ∈ scenario) ∧ NoDup r ∧
        (length r ≤ length [2; 14; 60] + 5)%nat ∧
        (min 5 (length scenario) ≤ length r)%nat) ∧
  (∃ r, simulate [2; 14; 60] sample_steps scenario = Return r ∧
        (∀ x, x ∈ r → x ∈ scenario ++ sample_steps.*2) ∧ NoDup r ∧
        (length r ≤ max (length scenario) (length [2; 14; 60] + 5))%nat ∧
        (sample_steps ≠ [] → length r ≤ length [2; 14; 60] + 5)%nat ∧
        (min 5 (length scenario + length sample_steps) ≤ length r)%nat).
Proof.
  assert (NoDup (scenario ++ sample_steps.*2)) as N
    by (apply (bool_decide_unpack _); vm_compute; exact I).
  assert (Forall well_formed (scenario ++ sample_steps.*2)) as W
    by (apply (bool_decide_unpack _); vm_compute; exact I).
  split; [by split|].
  exact (keep_set_size_bounds later_clock scenario (Some scenario_now)
           [2; 14; 60] sample_steps N W).
Defined.


(** C8. If [create_backup] raises, [run_backup] goes straight to its
    handler: the run ends in the world [create_backup] left, with one more
    log record, the failure.  No deletion is made: every entry the
    destination had before the run is still there. *)
Theorem creation_failure_skips_pruning (int_strip : string → option Z)
  (src dest max_ages log_file : string) (w w1 : world) (e : exn) :
  run (create_backup src dest) w = (w1, Raise e) →
  run (run_backup int_strip src dest max_ages log_file) w
  = (add_log (BackupFailed e) w1, Return ()) ∧
  (∀ x, x ∈ entries w →
        x ∈ entries (run (run_backup int_strip src dest max_ages log_file) w).1) ∧
  log (run (run_backup int_strip src dest max_ages log_file) w).1
  = log w1 ++ [BackupFailed e].
Proof.
  intros H.
  assert (run (run_backup int_strip src dest max_ages log_file) w
          = (add_log (BackupFailed e) w1, Return ())) as ->.
  { unfold run_backup, try_except. cbn [run]. rewrite run_bind, H. done. }
  split; [done|]. split; [|done].
  intros x Hx. simpl.
  pose proof (create_backup_keeps_entries src dest w x Hx) as Hk.
  by rewrite H in Hk.
Qed.

Lemma creation_failure_skips_pruning_witness :
  run (create_backup "src" "dst") (demo_world SrcMissing)
  = (tick (demo_world SrcMissing), Raise (OSError "src")) ∧
  (run (run_backup int_decimal "src" "dst" "2,14,60" "backup.log")
       (demo_world SrcMissing)
   = (add_log (BackupFailed (OSError "src")) (tick (demo_world SrcMissing)),
      Return ()) ∧
   (∀ x, x ∈ entries (demo_world SrcMissing) →
         x ∈ entries (run (run_backup int_decimal "src" "dst" "2,14,60"
                             "backup.log") (demo_world SrcMissing)).1) ∧
   log (run (run_backup int_decimal "src" "dst" "2,14,60" "backup.log")
            (demo_world SrcMissing)).1
   = log (tick (demo_world SrcMissing)) ++ [BackupFailed (OSError "src")]).
Proof.
  assert (run (create_backup "src" "dst") (demo_world SrcMissing)
          = (tick (demo_world SrcMissing), Raise (OSError "src"))) as H
    by reflexivity.
  split; [exact H|].
  exact (creation_failure_skips_pruning int_decimal "src" "dst" "2,14,60"
           "backup.log" _ _ _ H).
Defined.

(** C9, as stated, fails.  In the example the listing after the new
    snapshot holds three directories that are not retained; removing the
    second of them fails, and the third, which nothing stops from being
    removed, is still there when the run ends. *)
Lemma later_directories_are_left :
  ¬ pruning_completes int_decimal "src" "dst" "2" "backup.log"
      (demo_world SrcDir).
Proof.
  intros H.
  refine (H (run (create_backup "src" "dst") (demo_world SrcDir)).1 [2] _ _
            _ _ _ "20241113_140322"%string _ _ _ _).
  - reflexivity.
  - reflexivity.
  - by vm_compute.
  - by apply (bool_decide_unpack _); vm_compute.
  - by apply (bool_decide_unpack _); vm_compute.
  - by apply (bool_decide_unpack _); vm_compute.
  - by apply (bool_decide_unpack _); vm_compute.
Qed.

(** C9, amended.  [run_backup] has one handler around the whole run.  When
    the snapshot was created, the thresholds parsed and the keep-set
    computed, and the deletion of a directory [b] that is not retained
    raises, while every directory before [b] in the sorted listing is
    retained or removable: the directories before [b] that are not retained
    have been deleted and logged, the exception is caught and logged, the
    run returns normally, and [b] and every directory after it in the
    listing are still there. *)
Theorem failed_deletion_ends_the_pass (int_strip : string → option Z)
  (src dest max_ages log_file : string) (w w1 : world) (ages : list Z)
  (to_keep pre post : list string) (b : string) :
  run (create_backup src dest) w = (w1, Return ()) →
  NoDup (entries w1).*1 →
  (run (parse_ages int_strip (split "," max_ages))
       (add_log (BackupCreated src dest) w1)).2 = Return ages →
  clean_dates (wall w1 (reads w1))
    ((filter (λ e, e.2 = true) (entries w1)).*1) None ages
  = (pre ++ b :: post, Return to_keep) →
  Forall (λ x, x ∈ to_keep ∨ x ∉ locked w1) pre →
  (b ∉ to_keep) → b ∈ locked w1 →
  ∃ w', run (run_backup int_strip src dest max_ages log_file) w
        = (w', Return ()) ∧
        log w' = log w1 ++ [BackupCreated src dest]
                 ++ (RemovedOldBackup <$> filter (λ x, x ∉ to_keep) pre)
                 ++ [BackupFailed (OSError b)] ∧
        (∀ x, x ∈ pre → x ∉ to_keep → (x, true) ∉ entries w') ∧
        (∀ x, x ∈ b :: post → (x, true) ∈ entries w').
Proof.
  intros Hc Hnd Hp Hcd Hpre Hb Hlock.
  set (wa := add_log (BackupCreated src dest) w1) in *.
  set (dirs := (filter (λ e, e.2 = true) (entries w1)).*1) in *.
  assert (pre ++ b :: post ≡ₚ dirs) as Hperm.
  { pose proof (f_equal fst Hcd) as E. simpl in E. rewrite <- E.
    apply sort_strings_perm. }
  assert (NoDup (pre ++ b :: post)) as N
    by (rewrite Hperm; by apply dirs_NoDup).
  assert (∀ x, x ∈ pre ++ b :: post → (x, true) ∈ entries w1) as Hdir
    by (intros x Hx; rewrite Hperm in Hx; by apply dirs_are_entries).
  apply NoDup_app in N as (Npre & Hdisj & Npost).
  destruct (prune_ok to_keep pre (tick wa) Npre) as (w3 & Hrun & Hl3 & He3 & Hlog3).
  { apply Forall_forall. intros x Hx. rewrite Forall_forall in Hpre.
    destruct (Hpre x Hx) as [?|?]; [by left|right]. split; [done|].
    apply Hdir, elem_of_app. by left. }
  exists (add_log (BackupFailed (OSError b)) w3).
  split; [|split; [|split]].
  - unfold run_backup, try_except. cbn [run]. rewrite run_bind, Hc.
    rewrite run_bind. cbn [run logging]. fold wa. rewrite run_bind.
    pose proof (parse_ages_world int_strip (split "," max_ages) wa) as Hw.
    destruct (run (parse_ages int_strip (split "," max_ages)) wa) as [w2 r].
    simpl in Hw, Hp. subst w2 r.
    rewrite run_bind. cbn [run iterdir_dirs]. rewrite run_bind.
    unfold call_clean_dates. cbn [run].
    change (entries wa) with (entries w1).
    change (wall wa (reads wa)) with (wall w1 (reads w1)).
    fold dirs. rewrite Hcd.
    rewrite prune_app, Hrun, prune_locked; [done|done|by rewrite Hl3].
  - simpl. rewrite Hlog3. simpl. by rewrite <- !app_assoc.
  - intros x Hx Hk. simpl. rewrite He3. intros [_ Hno]. apply Hno. by exists x.
  - intros x Hx. simpl. apply He3. split.
    + apply Hdir, elem_of_app. by right.
    + intros (y & [= <-] & Hy & _). by apply (Hdisj x).
Qed.

Lemma failed_deletion_ends_the_pass_witness :
  (run (create_backup "src" "dst") (demo_world SrcDir)
   = (demo_created, Return ()) ∧
   NoDup (entries demo_created).*1 ∧
   (run (parse_ages int_decimal (split "," "2"))
        (add_log (BackupCreated "src" "dst") demo_created)).2 = Return [2] ∧
   clean_dates (wall demo_created (reads demo_created))
     ((filter (λ e, e.2 = true) (entries demo_created)).*1) None [2]
   = (demo_pre ++ "20241101_140322"%string :: demo_post, Return demo_keep) ∧
   Forall (λ x, x ∈ demo_keep ∨ x ∉ locked demo_created) demo_pre ∧
   ("20241101_140322"%string ∉ demo_keep) ∧
   "20241101_140322"%string ∈ locked demo_created) ∧
  ∃ w', run (run_backup int_decimal "src" "dst" "2" "backup.log")
            (demo_world SrcDir)
        = (w', Return ()) ∧
        log w' = log demo_created ++ [BackupCreated "src" "dst"]
                 ++ (RemovedOldBackup <$> filter (λ x, x ∉ demo_keep) demo_pre)
                 ++ [BackupFailed (OSError "20241101_140322")] ∧
        (∀ x, x ∈ demo_pre → x ∉ demo_keep → (x, true) ∉ entries w') ∧
        (∀ x, x ∈ "20241101_140322"%string :: demo_post →
              (x, true) ∈ entries w').
Proof.
  assert (run (create_backup "src" "dst") (demo_world SrcDir)
          = (demo_created, Return ())) as H1
    by reflexivity.
  assert (NoDup (entries demo_created).*1) as H2
    by (apply (bool_decide_unpack _); vm_compute; exact I).
  assert ((run (parse_ages int_decimal (split "," "2"))
             (add_log (BackupCreated "src" "dst") demo_created)).2
          = Return [2]) as H3
    by reflexivity.
  assert (clean_dates (wall demo_created (reads demo_created))
            ((filter (λ e, e.2 = true) (entries demo_created)).*1) None [2]
          = (demo_pre ++ "20241101_140322"%string :: demo_post,
             Return demo_keep)) as H4
    by (vm_compute; reflexivity).
  assert (Forall (λ x, x ∈ demo_keep ∨ x ∉ locked demo_created) demo_pre) as H5
    by (apply (bool_decide_unpack _); vm_compute; exact I).
  assert ("20241101_140322"%string ∉ demo_keep) as H6
    by (apply (bool_decide_unpack _); vm_compute; exact I).
  assert ("20241101_140322"%string ∈ locked demo_created) as H7
    by (apply (bool_decide_unpack _); vm_compute; exact I).
  split; [by repeat split|].
  exact (failed_deletion_ends_the_pass int_decimal "src" "dst" "2" "backup.log"
           (demo_world SrcDir) demo_created [2] demo_keep demo_pre demo_post
           "20241101_140322" H1 H2 H3 H4 H5 H6 H7).
Defined.

(** C10. On the empty list the call returns the empty list, raises nothing
    and leaves the list empty, for every [now] and [max_ages]. *)
Theorem clean_dates_empty (clock : datetime) (now : option datetime)
  (max_ages : list Z) :
  clean_dates clock [] now max_ages = ([], Return []).
Proof.
  rewrite clean_dates_well_formed by constructor.
  change (sort_strings []) with (@nil string). f_equal. f_equal.
  assert (omap (representative (default clock now) []) max_ages = []) as ->
    by (induction max_ages; [done|by csimpl]).
  unfold sorted_set. simpl. by rewrite elements_empty.
Qed.

(** * Part IV: further properties of the code *)

(** X1. The name [create_backup] gives a snapshot parses back: for a valid
    time of day in the years 1000 to 9999, [strptime] of
    [strftime("%Y%m%d_%H%M%S")] is the same time with the microseconds
    dropped, so the name is a well-formed identifier whose instant is the
    start of the second in which it was written. *)
Theorem snapshot_name_parses_back (t : datetime) :
  valid t → 1000 ≤ year t →
  strptime (strftime t)
  = Some (mk_datetime (year t) (month t) (day t) (hour t) (minute t) (second t) 0) ∧
  well_formed (strftime t) ∧
  stamp (strftime t) = instant t - microsecond t.
Proof.
  intros V _. pose proof (strptime_strftime t V) as H.
  split; [done|]. split; [by eexists|].
  unfold stamp. rewrite H. unfold instant, toordinal. simpl. lia.
Qed.

Lemma snapshot_name_parses_back_witness :
  (valid scenario_now ∧ 1000 ≤ year scenario_now) ∧
  (strptime (strftime scenario_now)
   = Some (mk_datetime (year scenario_now) (month scenario_now)
             (day scenario_now) (hour scenario_now) (minute scenario_now)
             (second scenario_now) 0) ∧
   well_formed (strftime scenario_now) ∧
   stamp (strftime scenario_now) = instant scenario_now - microsecond scenario_now).
Proof.
  assert (valid scenario_now) as V
    by (apply valid_datetime_spec; vm_compute; reflexivity).
  assert (1000 ≤ year scenario_now) as Y by (vm_compute; discriminate).
  split; [by split|]. exact (snapshot_name_parses_back scenario_now V Y).
Defined.

(** X2. On well-formed identifiers the order [dates.sort()] uses is the
    chronological order: comparing two identifiers as strings gives the
    comparison of the instants they denote, and two identifiers denote the
    same instant only when they are the same string. *)
Theorem string_order_is_chronological (x y : string) :
  well_formed x → well_formed y →
  String.compare x y = (stamp x ?= stamp y) ∧
  (str_le x y ↔ stamp x ≤ stamp y) ∧
  (stamp x = stamp y → x = y).
Proof.
  intros Wx Wy. split; [|split].
  - destruct Wx as [tx Hx], Wy as [ty Hy]. unfold stamp. rewrite Hx, Hy.
    by apply strptime_compare.
  - by apply str_le_stamp.
  - by apply stamp_inj.
Qed.

Lemma string_order_is_chronological_witness :
  (well_formed "20240916_130322" ∧ well_formed "20241101_140322") ∧
  (String.compare "20240916_130322" "20241101_140322"
   = (stamp "20240916_130322" ?= stamp "20241101_140322") ∧
   (str_le "20240916_130322" "20241101_140322"
    ↔ stamp "20240916_130322" ≤ stamp "20241101_140322") ∧
   (stamp "20240916_130322" = stamp "20241101_140322" →
    "20240916_130322"%string = "20241101_140322"%string)).
Proof.
  assert (well_formed "20240916_130322") as Wx
    by (apply (bool_decide_unpack _); vm_compute; exact I).
  assert (well_formed "20241101_140322") as Wy
    by (apply (bool_decide_unpack _); vm_compute; exact I).
  split; [by split|].
  exact (string_order_is_chronological _ _ Wx Wy).
Defined.



(** X4. Pruning is idempotent: running the selector again on the list it
    returned, with the same [now] and thresholds, returns that list once
    more and leaves it as it is.  A second run at the same moment deletes
    nothing. *)
Theorem clean_dates_idempotent (clock clock' : datetime) (dates : list string)
  (now : datetime) (max_ages : list Z) (r : list string) :
  Forall well_formed dates →
  (clean_dates clock dates (Some now) max_ages).2 = Return r →
  clean_dates clock' r (Some now) max_ages = (r, Return r).
Proof.
  intros W Hr.
  destruct (clean_dates_spec clock dates (Some now) max_ages W)
    as (r0 & Hr0 & S & N & Hmem).
  rewrite Hr in Hr0. injection Hr0 as <-.
  assert (∀ x, x ∈ r → x ∈ dates) as Hsub
    by (by apply (clean_dates_subset clock dates (Some now) max_ages)).
  assert (Forall well_formed r) as Wr.
  { rewrite Forall_forall in W |- *. auto. }
  destruct (clean_dates_spec clock' r (Some now) max_ages Wr)
    as (r' & Hr' & S' & N' & Hmem').
  assert (r' = r) as ->.
  { apply sorted_set_fixed; try done. intros x. split.
    - intros [[? _]|(a & _ & ? & _)]%Hmem'; done.
    - intros Hx. apply Hmem'. simpl in *.
      destruct (proj1 (Hmem x) Hx) as [[_ Hc]|(a & Ha & _ & Ax & F)].
      + left. split; [done|].
        eapply Nat.le_lt_trans; [|exact Hc]. by apply length_filter_subset.
      + right. exists a. split; [done|]. split; [done|]. split; [done|].
        rewrite Forall_forall in F |- *. auto. }
  destruct (clean_dates clock' r (Some now) max_ages) as [d' o] eqn:E.
  simpl in Hr'. subst o. f_equal.
  pose proof (f_equal fst E) as E1. simpl in E1. rewrite <- E1.
  apply sort_strings_id. by apply StronglySorted_Sorted.
Qed.

Lemma clean_dates_idempotent_witness :
  (Forall well_formed scenario ∧
   (clean_dates later_clock scenario (Some scenario_now) [2; 14; 60]).2
   = Return scenario_keep) ∧
  clean_dates midnight scenario_keep (Some scenario_now) [2; 14; 60]
  = (scenario_keep, Return scenario_keep).
Proof.
  assert (Forall well_formed scenario) as W
    by (apply (bool_decide_unpack _); vm_compute; exact I).
  assert ((clean_dates later_clock scenario (Some scenario_now) [2; 14; 60]).2
          = Return scenario_keep) as H by (vm_compute; reflexivity).
  split; [by split|].
  exact (clean_dates_idempotent later_clock midnight scenario scenario_now
           [2; 14; 60] scenario_keep W H).
Defined.

(** X5. A bucket's representative is stable while it is young enough.  If
    [x] is the earliest identifier under threshold [a] at [now], then at any
    later time [now'] at which [x] is still under [a], and for any list that
    still holds [x] and otherwise only identifiers of the old list or
    identifiers not earlier than [x], [x] is again the earliest identifier
    under [a] and is kept.  New snapshots and the passing of time do not
    move the anchor of a bucket before it ages out. *)
Theorem representative_is_stable (clock : datetime) (dates dates' : list string)
  (now now' : datetime) (max_ages : list Z) (a : Z) (x : string) :
  Forall well_formed dates → Forall well_formed dates' →
  a ∈ max_ages →
  earliest_under code_age now a dates x →
  instant now ≤ instant now' →
  code_age now' x < a →
  x ∈ dates' →
  (∀ y, y ∈ dates' → y ∈ dates ∨ stamp x ≤ stamp y) →
  earliest_under code_age now' a dates' x ∧
  ∃ r, (clean_dates clock dates' (Some now') max_ages).2 = Return r ∧ x ∈ r.
Proof.
  intros W W' Ha (Hx & Ax & F) Hnow Ax' Hx' Hnew.
  assert (earliest_under code_age now' a dates' x) as He.
  { split; [done|]. split; [done|]. apply Forall_forall. intros y Hy Ay.
    destruct (Hnew y Hy) as [Hold|?]; [|done].
    rewrite Forall_forall in F, W. apply F; [done|].
    pose proof (code_age_mono now now' y (W y Hold) Hnow). lia. }
  split; [done|].
  destruct (clean_dates_spec clock dates' (Some now') max_ages W')
    as (r & Hr & _ & _ & Hmem).
  exists r. split; [done|]. apply Hmem. right. by exists a.
Qed.

Lemma representative_is_stable_witness :
  (Forall well_formed scenario ∧ Forall well_formed scenario_later ∧
   60 ∈ [2; 14; 60] ∧
   earliest_under code_age scenario_now 60 scenario "20241101_140322" ∧
   instant scenario_now ≤ instant scenario_now_later ∧
   code_age scenario_now_later "20241101_140322" < 60 ∧
   "20241101_140322"%string ∈ scenario_later ∧
   (∀ y, y ∈ scenario_later →
         y ∈ scenario ∨ stamp "20241101_140322" ≤ stamp y)) ∧
  (earliest_under code_age scenario_now_later 60 scenario_later "20241101_140322" ∧
   ∃ r, (clean_dates later_clock scenario_later (Some scenario_now_later)
           [2; 14; 60]).2 = Return r ∧
        "20241101_140322"%string ∈ r).
Proof.
  assert (Forall well_formed scenario) as H1
    by (apply (bool_decide_unpack _); vm_compute; exact I).
  assert (Forall well_formed scenario_later) as H2
    by (apply (bool_decide_unpack _); vm_compute; exact I).
  assert (60 ∈ [2; 14; 60]) as H3
    by (apply (bool_decide_unpack _); vm_compute; exact I).
  assert (earliest_under code_age scenario_now 60 scenario "20241101_140322") as H4
    by (apply (bool_decide_unpack _); vm_compute; exact I).
  assert (instant scenario_now ≤ instant scenario_now_later) as H5
    by (vm_compute; discriminate).
  assert (code_age scenario_now_later "20241101_140322" < 60) as H6
    by (vm_compute; reflexivity).
  assert ("20241101_140322"%string ∈ scenario_later) as H7
    by (apply (bool_decide_unpack _); vm_compute; exact I).
  assert (Forall (λ y, y ∈ scenario ∨ stamp "20241101_140322" ≤ stamp y)
            scenario_later) as H8
    by (apply (bool_decide_unpack _); vm_compute; exact I).
  rewrite Forall_forall in H8.
  split; [split_and!; assumption|].
  exact (representative_is_stable later_clock scenario scenario_later scenario_now
           scenario_now_later [2; 14; 60] 60 "20241101_140322"
           H1 H2 H3 H4 H5 H6 H7 H8).
Defined.

(** X6. More thresholds never delete more: when every threshold of
    [max_ages] is also in [max_ages'], every identifier kept under
    [max_ages] is kept under [max_ages']. *)
Theorem more_thresholds_keep_more (clock : datetime) (dates : list string)
  (now : option datetime) (max_ages max_ages' : list Z) :
  Forall well_formed dates →
  (∀ a, a ∈ max_ages → a ∈ max_ages') →
  ∃ r r', (clean_dates clock dates now max_ages).2 = Return r ∧
          (clean_dates clock dates now max_ages').2 = Return r' ∧
          ∀ x, x ∈ r → x ∈ r'.
Proof.
  intros W Hsub.
  destruct (clean_dates_spec clock dates now max_ages W) as (r & Hr & _ & _ & Hmem).
  destruct (clean_dates_spec clock dates now max_ages' W) as (r' & Hr' & _ & _ & Hmem').
  exists r, r'. split; [done|]. split; [done|].
  intros x [?|(a & Ha & He)]%Hmem; apply Hmem'; [by left|right].
  exists a. split; [auto|done].
Qed.

Lemma more_thresholds_keep_more_witness :
  (Forall well_formed scenario ∧ (∀ a, a ∈ [14] → a ∈ [2; 14; 60])) ∧
  ∃ r r', (clean_dates later_clock scenario (Some scenario_now) [14]).2 = Return r ∧
          (clean_dates later_clock scenario (Some scenario_now) [2; 14; 60]).2
          = Return r' ∧
          ∀ x, x ∈ r → x ∈ r'.
Proof.
  assert (Forall well_formed scenario) as W
    by (apply (bool_decide_unpack _); vm_compute; exact I).
  assert (Forall (λ a, a ∈ [2; 14; 60]) [14]) as H
    by (apply (bool_decide_unpack _); vm_compute; exact I).
  rewrite Forall_forall in H.
  split; [by split|].
  exact (more_thresholds_keep_more later_clock scenario (Some scenario_now)
           [14] [2; 14; 60] W H).
Defined.

(** X7. The list [clean_dates] returns is in strictly ascending
    chronological order: each identifier denotes an earlier instant than
    every identifier after it. *)
Theorem keep_set_is_ascending (clock : datetime) (dates : list string)
  (now : option datetime) (max_ages : list Z) :
  Forall well_formed dates →
  ∃ r, (clean_dates clock dates now max_ages).2 = Return r ∧
       StronglySorted (λ x y, stamp x < stamp y) r.
Proof.
  intros W.
  destruct (clean_dates_spec clock dates now max_ages W) as (r & Hr & S & N & _).
  exists r. split; [done|].
  assert (Forall well_formed r) as Wr.
  { pose proof (clean_dates_subset clock dates now max_ages r W Hr) as Hsub.
    rewrite Forall_forall in W |- *. auto. }
  clear Hr. induction r as [|x r IH]; [constructor|].
  apply StronglySorted_cons in S as [Hx S].
  apply NoDup_cons in N as [Hnx N]. apply Forall_cons in Wr as [Wx Wr].
  constructor; [by apply IH|].
  rewrite Forall_forall in Hx, Wr |- *. intros y Hy.
  pose proof (proj1 (str_le_stamp x y Wx (Wr y Hy)) (Hx y Hy)).
  destruct (decide (stamp x = stamp y)) as [E|]; [|lia].
  apply stamp_inj in E; auto. by subst y.
Qed.

Lemma keep_set_is_ascending_witness :
  Forall well_formed (reverse scenario) ∧
  ∃ r, (clean_dates later_clock (reverse scenario) (Some scenario_now)
          [2; 14; 60]).2 = Return r ∧
       StronglySorted (λ x y, stamp x < stamp y) r.
Proof.
  assert (Forall well_formed (reverse scenario)) as W
    by (apply (bool_decide_unpack _); vm_compute; exact I).
  split; [exact W|].
  exact (keep_set_is_ascending later_clock (reverse scenario)
           (Some scenario_now) [2; 14; 60] W).
Defined.


(** X9. A run in which nothing fails leaves exactly the keep-set.  When
    the snapshot is created, [max_ages] parses, the selector returns
    [to_keep] for the listing, and no directory outside [to_keep] is locked:
    the run returns; the destination then holds the entries it had after the
    snapshot was created minus the directories outside [to_keep], so its
    directories are exactly [to_keep]; and the log gained one record for the
    snapshot and one for each removed directory, oldest first. *)
Theorem run_backup_leaves_keep_set (int_strip : string → option Z)
  (src dest max_ages log_file : string) (w w1 : world) (ages : list Z)
  (backups to_keep : list string) :
  run (create_backup src dest) w = (w1, Return ()) →
  NoDup (entries w1).*1 →
  (run (parse_ages int_strip (split "," max_ages))
       (add_log (BackupCreated src dest) w1)).2 = Return ages →
  clean_dates (wall w1 (reads w1)) (dirs w1) None ages
  = (backups, Return to_keep) →
  Forall (λ x, x ∈ to_keep ∨ x ∉ locked w1) backups →
  ∃ w', run (run_backup int_strip src dest max_ages log_file) w
        = (w', Return ()) ∧
        (∀ e, e ∈ entries w' ↔ e ∈ entries w1 ∧ (e.2 = true → e.1 ∈ to_keep)) ∧
        (∀ x, x ∈ dirs w' ↔ x ∈ to_keep) ∧
        log w' = log w1 ++ [BackupCreated src dest]
                 ++ (RemovedOldBackup <$> filter (λ x, x ∉ to_keep) backups).
Proof.
  intros Hc Hnd Hp Hcd Hfree.
  set (wa := add_log (BackupCreated src dest) w1) in *.
  assert (backups ≡ₚ dirs w1) as Hperm.
  { pose proof (f_equal fst Hcd) as E. simpl in E. rewrite <- E.
    apply sort_strings_perm. }
  assert (NoDup backups) as N by (rewrite Hperm; by apply dirs_NoDup).
  assert (∀ x, x ∈ backups → (x, true) ∈ entries w1) as Hdir
    by (intros x Hx; rewrite Hperm in Hx; by apply dirs_are_entries).
  assert (∀ x, x ∈ to_keep → x ∈ backups) as Hsub.
  { intros x Hx. rewrite Hperm.
    apply (clean_dates_return_subset (wall w1 (reads w1)) (dirs w1) None ages to_keep);
      [by rewrite Hcd|done]. }
  destruct (prune_ok to_keep backups (tick wa) N) as (w' & Hrun & _ & He & Hlog).
  { apply Forall_forall. intros x Hx. rewrite Forall_forall in Hfree.
    destruct (Hfree x Hx) as [?|?]; [by left|right]. split; [done|]. by apply Hdir. }
  assert (∀ e, e ∈ entries w' ↔ e ∈ entries w1 ∧ (e.2 = true → e.1 ∈ to_keep))
    as He'.
  { intros e. rewrite He. cbn [entries tick wa add_log]. split.
    - intros [Hin Hno]. split; [done|]. intros Hd.
      destruct e as [x k]. simpl in *. subst k.
      destruct (decide (x ∈ to_keep)) as [|Hk]; [done|].
      destruct Hno. exists x. split; [done|]. split; [|done].
      rewrite Hperm. by apply entries_are_dirs.
    - intros [Hin Hk]. split; [done|].
      intros (x & -> & _ & Hx). by apply Hx, Hk. }
  exists w'. split; [|split; [done|split]].
  - rewrite run_backup_stages, Hc. cbv zeta. fold wa. rewrite Hp, Hcd, Hrun. done.
  - intros x. split.
    + intros Hx%dirs_are_entries. by apply He' in Hx as [_ Hx]; apply Hx.
    + intros Hx. apply entries_are_dirs, He'. split; [|done].
      by apply Hdir, Hsub.
  - rewrite Hlog. simpl. by rewrite <- app_assoc.
Qed.

Lemma run_backup_leaves_keep_set_witness :
  (run (create_backup "src" "dst") calm_world = (calm_created, Return ()) ∧
   NoDup (entries calm_created).*1 ∧
   (run (parse_ages int_decimal (split "," "2,14,60"))
        (add_log (BackupCreated "src" "dst") calm_created)).2
   = Return [2; 14; 60] ∧
   clean_dates (wall calm_created (reads calm_created)) (dirs calm_created)
     None [2; 14; 60]
   = (scenario ++ ["20241115_140322"%string], Return calm_keep) ∧
   Forall (λ x, x ∈ calm_keep ∨ x ∉ locked calm_created)
     (scenario ++ ["20241115_140322"%string])) ∧
  ∃ w', run (run_backup int_decimal "src" "dst" "2,14,60" "backup.log") calm_world
        = (w', Return ()) ∧
        (∀ e, e ∈ entries w' ↔
              e ∈ entries calm_created ∧ (e.2 = true → e.1 ∈ calm_keep)) ∧
        (∀ x, x ∈ dirs w' ↔ x ∈ calm_keep) ∧
        log w' = log calm_created ++ [BackupCreated "src" "dst"]
                 ++ (RemovedOldBackup <$>
                       filter (λ x, x ∉ calm_keep)
                         (scenario ++ ["20241115_140322"%string])).
Proof.
  assert (run (create_backup "src" "dst") calm_world
          = (calm_created, Return ())) as H1 by reflexivity.
  assert (NoDup (entries calm_created).*1) as H2
    by (apply (bool_decide_unpack _); vm_compute; exact I).
  assert ((run (parse_ages int_decimal (split "," "2,14,60"))
             (add_log (BackupCreated "src" "dst") calm_created)).2
          = Return [2; 14; 60]) as H3 by reflexivity.
  assert (clean_dates (wall calm_created (reads calm_created))
            (dirs calm_created) None [2; 14; 60]
          = (scenario ++ ["20241115_140322"%string], Return calm_keep)) as H4
    by (vm_compute; reflexivity).
  assert (Forall (λ x, x ∈ calm_keep ∨ x ∉ locked calm_created)
            (scenario ++ ["20241115_140322"%string])) as H5
    by (apply (bool_decide_unpack _); vm_compute; exact I).
  split; [split_and!; assumption|].
  exact (run_backup_leaves_keep_set int_decimal "src" "dst" "2,14,60"
           "backup.log" calm_world calm_created [2; 14; 60]
           (scenario ++ ["20241115_140322"%string]) calm_keep H1 H2 H3 H4 H5).
Defined.





(** X12. The snapshot a run has just written survives that run.  When
    every directory of the destination is an identifier and fewer than five
    of them are later than the new snapshot, the new snapshot is still in
    the destination when the run ends, whatever else happens in the run. *)
Theorem new_snapshot_survives (int_strip : string → option Z)
  (src dest max_ages log_file : string) (w w1 : world) :
  run (create_backup src dest) w = (w1, Return ()) →
  Forall well_formed (dirs w1) →
  among_latest 5 (dirs w1) (strftime (wall w (reads w))) →
  (strftime (wall w (reads w)), true)
  ∈ entries (run (run_backup int_strip src dest max_ages log_file) w).1.
Proof.
  intros Hc W Hlate.
  pose proof (create_backup_new_entry src dest w w1 Hc) as Hnew.
  rewrite run_backup_stages, Hc. cbv zeta.
  destruct (run (parse_ages _ _) _) as [w2 [ages|e2]]; cbn [snd]; [|done].
  destruct (clean_dates_spec (wall w1 (reads w1)) (dirs w1) None ages W)
    as (to_keep & Hr & _ & _ & Hmem).
  destruct (clean_dates _ _ _ _) as [backups o]. simpl in Hr. subst o.
  destruct (prune_frame to_keep backups
              (tick (add_log (BackupCreated src dest) w1))) as (_ & _ & Hout).
  set (ts := strftime (wall w (reads w))) in *.
  assert ((ts, true) ∈ entries (run (prune to_keep backups)
            (tick (add_log (BackupCreated src dest) w1))).1) as Hin.
  { destruct (decide ((ts, true) ∈ entries (run (prune to_keep backups)
              (tick (add_log (BackupCreated src dest) w1))).1)) as [|Hne]; [done|].
    destruct (Hout (ts, true)) as (x & [= <-] & _ & Hx); [done|done|].
    destruct Hx. apply Hmem. by left. }
  by destruct (run (prune to_keep backups) _) as [w' [[]|e4]].
Qed.

Lemma new_snapshot_survives_witness :
  (run (create_backup "src" "dst") (demo_world SrcDir) = (demo_created, Return ()) ∧
   Forall well_formed (dirs demo_created) ∧
   among_latest 5 (dirs demo_created)
     (strftime (wall (demo_world SrcDir) (reads (demo_world SrcDir))))) ∧
  (strftime (wall (demo_world SrcDir) (reads (demo_world SrcDir))), true)
  ∈ entries (run (run_backup int_decimal "src" "dst" "2" "backup.log")
               (demo_world SrcDir)).1.
Proof.
  assert (run (create_backup "src" "dst") (demo_world SrcDir)
          = (demo_created, Return ())) as H1 by reflexivity.
  assert (Forall well_formed (dirs demo_created)) as H2
    by (apply (bool_decide_unpack _); vm_compute; exact I).
  assert (among_latest 5 (dirs demo_created)
            (strftime (wall (demo_world SrcDir) (reads (demo_world SrcDir)))))
    as H3 by (apply (bool_decide_unpack _); vm_compute; exact I).
  split; [split_and!; assumption|].
  exact (new_snapshot_survives int_decimal "src" "dst" "2" "backup.log"
           (demo_world SrcDir) demo_created H1 H2 H3).
Defined.

(** X13. A failed copy of a file leaves its directory behind.  For a file
    source, [create_backup] makes the timestamp directory first and copies
    afterwards; when the copy fails, the directory stays, the error is
    raised, and [run_backup] ends with the directory in the destination,
    where a later run lists it like any other snapshot. *)
Theorem failed_copy_leaves_directory (int_strip : string → option Z)
  (src dest max_ages log_file : string) (w : world) :
  source w = SrcFile → writable w = true → disk_full w = true →
  strftime (wall w (reads w)) ∉ (entries w).*1 →
  run (create_backup src dest) w
  = (set_entries (entries w ++ [(strftime (wall w (reads w)), true)]) (tick w),
     Raise (OSError (strftime (wall w (reads w))))) ∧
  (strftime (wall w (reads w)), true)
  ∈ entries (run (run_backup int_strip src dest max_ages log_file) w).1 ∧
  strftime (wall w (reads w))
  ∈ dirs (run (run_backup int_strip src dest max_ages log_file) w).1.
Proof.
  intros Hs Hw Hf Hfresh. set (ts := strftime (wall w (reads w))).
  assert (run (create_backup src dest) w
          = (set_entries (entries w ++ [(ts, true)]) (tick w), Raise (OSError ts)))
    as Hc.
  { unfold create_backup. rewrite run_bind. cbn [run datetime_now].
    change (source (tick w)) with (source w). rewrite Hs.
    rewrite run_bind. unfold make_dir. cbn [run].
    change (entries (tick w)) with (entries w).
    change (writable (tick w)) with (writable w). fold ts.
    destruct (decide ((ts, true) ∈ entries w)) as [Hin|_].
    { destruct Hfresh. apply list_elem_of_fmap. by exists (ts, true). }
    destruct (decide (ts ∈ (entries w).*1)); [done|].
    rewrite Hw. cbn [run copy_into]. simpl. by rewrite Hf. }
  split; [done|].
  assert ((ts, true) ∈ entries
            (run (run_backup int_strip src dest max_ages log_file) w).1) as Hin.
  { rewrite run_backup_stages, Hc. simpl. apply elem_of_app. right. by left. }
  split; [done|]. by apply entries_are_dirs.
Qed.

Lemma failed_copy_leaves_directory_witness :
  (source full_world = SrcFile ∧ writable full_world = true ∧
   disk_full full_world = true ∧
   strftime (wall full_world (reads full_world)) ∉ (entries full_world).*1) ∧
  (run (create_backup "src" "dst") full_world
   = (set_entries (entries full_world
                   ++ [(strftime (wall full_world (reads full_world)), true)])
        (tick full_world),
      Raise (OSError (strftime (wall full_world (reads full_world))))) ∧
   (strftime (wall full_world (reads full_world)), true)
   ∈ entries (run (run_backup int_decimal "src" "dst" "2,14,60" "backup.log")
                full_world).1 ∧
   strftime (wall full_world (reads full_world))
   ∈ dirs (run (run_backup int_decimal "src" "dst" "2,14,60" "backup.log")
             full_world).1).
Proof.
  assert (source full_world = SrcFile) as H1 by reflexivity.
  assert (writable full_world = true) as H2 by reflexivity.
  assert (disk_full full_world = true) as H3 by reflexivity.
  assert (strftime (wall full_world (reads full_world))
          ∉ (entries full_world).*1) as H4
    by (apply (bool_decide_unpack _); vm_compute; exact I).
  split; [split_and!; assumption|].
  exact (failed_copy_leaves_directory int_decimal "src" "dst" "2,14,60"
           "backup.log" full_world H1 H2 H3 H4).
Defined.

(** X14. Two snapshots within one second.  When the directory for the
    current second already exists, a directory source makes [create_backup]
    raise without changing the destination ([shutil.copytree] refuses an
    existing target), and [run_backup] then prunes nothing; a file source is
    copied into the existing directory and [create_backup] returns
    ([mkdir] is called with [exist_ok=True]). *)
Theorem snapshot_in_the_same_second (int_strip : string → option Z)
  (src dest max_ages log_file : string) (w : world) :
  (strftime (wall w (reads w)), true) ∈ entries w →
  (source w = SrcDir →
   run (create_backup src dest) w
   = (tick w, Raise (OSError (strftime (wall w (reads w))))) ∧
   run (run_backup int_strip src dest max_ages log_file) w
   = (add_log (BackupFailed (OSError (strftime (wall w (reads w))))) (tick w),
      Return ())) ∧
  (source w = SrcFile → disk_full w = false →
   run (create_backup src dest) w = (tick w, Return ())).
Proof.
  intros Hin. set (ts := strftime (wall w (reads w))) in *.
  assert (∀ ok, run (make_dir ts ok) (tick w)
                = (tick w, if ok then Return () else Raise (OSError ts))) as Hmk.
  { intros ok. unfold make_dir. cbn [run]. change (entries (tick w)) with (entries w).
    destruct (decide ((ts, true) ∈ entries w)); [|done]. by destruct ok. }
  split.
  - intros Hs.
    assert (run (create_backup src dest) w = (tick w, Raise (OSError ts))) as Hc.
    { unfold create_backup. rewrite run_bind. cbn [run datetime_now].
      change (source (tick w)) with (source w). rewrite Hs.
      fold ts. by rewrite run_bind, Hmk. }
    split; [done|]. by rewrite run_backup_stages, Hc.
  - intros Hs Hf. unfold create_backup. rewrite run_bind. cbn [run datetime_now].
    change (source (tick w)) with (source w). rewrite Hs.
    fold ts. rewrite run_bind, Hmk. cbn [run copy_into].
    change (disk_full (tick w)) with (disk_full w). by rewrite Hf.
Qed.

Lemma snapshot_in_the_same_second_witness :
  (strftime (wall same_second_world (reads same_second_world)), true)
  ∈ entries same_second_world ∧
  ((source same_second_world = SrcDir →
    run (create_backup "src" "dst") same_second_world
    = (tick same_second_world,
       Raise (OSError (strftime (wall same_second_world (reads same_second_world))))) ∧
    run (run_backup int_decimal "src" "dst" "2,14,60" "backup.log") same_second_world
    = (add_log (BackupFailed (OSError (strftime (wall same_second_world
                                                   (reads same_second_world)))))
         (tick same_second_world),
       Return ())) ∧
   (source same_second_world = SrcFile → disk_full same_second_world = false →
    run (create_backup "src" "dst") same_second_world
    = (tick same_second_world, Return ()))).
Proof.
  assert ((strftime (wall same_second_world (reads same_second_world)), true)
          ∈ entries same_second_world) as H
    by (apply (bool_decide_unpack _); vm_compute; exact I).
  split; [exact H|].
  exact (snapshot_in_the_same_second int_decimal "src" "dst" "2,14,60"
           "backup.log" same_second_world H).
Defined.

(** X15. [generate_test_dates(num_dates, base_date)] returns [num_dates]
    identifiers, one per hour from [base_date]: each is well formed and
    denotes the start of the second of [base_date] plus its index in hours.
    The list is in strictly ascending chronological order, so it has no
    duplicates and [dates.sort()] in [clean_dates] leaves it as it is.
    (For a base date in the years 1000 to 9998 and at most a year of
    hours, no addition overflows.) *)
Theorem generated_dates_are_hourly (num_dates : Z) (base_date : datetime) :
  valid base_date → 1000 ≤ year base_date ≤ 9998 → num_dates ≤ 8760 →
  ∃ l, generate_test_dates num_dates base_date = Some l ∧
       length l = Z.to_nat num_dates ∧
       Forall2 (λ i d, well_formed d ∧
                       stamp d = instant base_date - microsecond base_date
                                 + i * usec_per_hour)
               (seqZ 0 num_dates) l ∧
       StronglySorted (λ x y, stamp x < stamp y) l ∧
       sort_strings l = l.
Proof.
  intros V Hy Hn. destruct (instant_year_range base_date V) as [Hlo Hhi]; [lia|].
  destruct (generate_test_dates_spec num_dates base_date V) as (l & Hl & F).
  { unfold usec_per_day in *. lia. }
  { unfold usec_per_day, usec_per_hour, MAXORDINAL in *. lia. }
  exists l. split; [done|]. split.
  { rewrite (Forall2_length_lookup _ _ _ F). apply length_seqZ. }
  split; [done|].
  assert (StronglySorted (λ x y, stamp x < stamp y) l) as S.
  { eapply (Forall2_sorted Z.lt); [|exact F|apply seqZ_sorted].
    intros i j x y [_ Hx] [_ Hj] Hij. simpl in *. unfold usec_per_hour in *. lia. }
  split; [done|].
  assert (Forall well_formed l) as W.
  { clear S Hl. induction F as [|i d ? ? [Wd _] _ IH]; by constructor. }
  apply sort_strings_id, StronglySorted_Sorted.
  clear Hl F. induction S as [|x l S IH Hx]; [constructor|].
  apply Forall_cons in W as [Wx W]. constructor; [by apply IH|].
  rewrite Forall_forall in Hx, W |- *. intros y Hy'.
  apply str_le_stamp; auto. specialize (Hx y Hy'). lia.
Qed.

Lemma generated_dates_are_hourly_witness :
  (valid scenario_now ∧ 1000 ≤ year scenario_now ≤ 9998 ∧ 3 ≤ 8760) ∧
  ∃ l, generate_test_dates 3 scenario_now = Some l ∧
       length l = Z.to_nat 3 ∧
       Forall2 (λ i d, well_formed d ∧
                       stamp d = instant scenario_now - microsecond scenario_now
                                 + i * usec_per_hour)
               (seqZ 0 3) l ∧
       StronglySorted (λ x y, stamp x < stamp y) l ∧
       sort_strings l = l.
Proof.
  assert (valid scenario_now) as V
    by (apply valid_datetime_spec; vm_compute; reflexivity).
  assert (1000 ≤ year scenario_now ≤ 9998) as Y by (vm_compute; split; discriminate).
  assert (3 ≤ 8760) as N by (vm_compute; discriminate).
  split; [split_and!; assumption|].
  exact (generated_dates_are_hourly 3 scenario_now V Y N).
Defined.

(** X16. The simulation cell never fails and its list stays small.  Started
    at any valid [now] in the years 1001 to 9998 and run for up to a year
    of hourly steps, the cell raises nothing; it starts from 2400
    identifiers, and after every step from the first on the list holds
    between 5 and 8 well-formed, distinct identifiers, among them the one
    written in that step. *)
Theorem simulation_stays_bounded (now : datetime) (steps : nat) :
  valid now → 1001 ≤ year now ≤ 9998 → Z.of_nat steps ≤ 8760 →
  ∃ now' l, simulation now steps = Some (now', l) ∧
            instant now' = instant now + Z.of_nat steps * usec_per_hour ∧
            Forall well_formed l ∧ NoDup l ∧
            (steps = 0 → length l = 2400)%nat ∧
            (1 ≤ steps → 5 ≤ length l ≤ 8 ∧ strftime now' ∈ l)%nat.
Proof.
  intros V Hy Hk. destruct (instant_year_range now V) as [Hlo Hhi]; [lia|].
  unfold simulation, datetime_minus.
  destruct (datetime_add_in_range now (timedelta_neg (timedelta_of 100 0)) V)
    as [base Hbase].
  { rewrite total_us_neg, total_us_hours.
    unfold usec_per_day, usec_per_hour, MAXORDINAL in *. lia. }
  destruct (datetime_add_spec now base _ V Hbase) as [Vb Hib].
  rewrite total_us_neg, total_us_hours in Hib.
  rewrite Hbase. cbn [mbind option_bind].
  destruct (generate_test_dates_spec 2400 base Vb) as (dates & -> & F).
  { unfold usec_per_day, usec_per_hour in *. lia. }
  { unfold usec_per_day, usec_per_hour, MAXORDINAL in *. lia. }
  cbn [mbind option_bind].
  assert (0 ≤ microsecond base) as Hus by (destruct Vb as [_ _ _ _ _ _ ?]; lia).
  assert (length dates = 2400%nat) as Hlen.
  { rewrite (Forall2_length_lookup _ _ _ F), length_seqZ. done. }
  assert (Forall (λ d, well_formed d ∧ stamp d ≤ instant now) dates) as Hd.
  { assert (Forall (λ i, 0 ≤ i < 2400) (seqZ 0 2400)) as Hi
      by (apply Forall_seqZ; lia).
    clear Hlen. induction F as [|i d ? ? [Wd Hs] _ IH]; [constructor|].
    apply Forall_cons in Hi as [Hi Hi']. constructor; [|by apply IH].
    split; [done|]. unfold usec_per_day, usec_per_hour in *. lia. }
  assert (StronglySorted (λ x y, stamp x < stamp y) dates) as S.
  { eapply (Forall2_sorted Z.lt); [|exact F|apply seqZ_sorted].
    intros i j x y [_ Hx] [_ Hj] Hij. simpl in *. unfold usec_per_hour in *. lia. }
  assert (NoDup dates) as N.
  { clear F Hlen Hd. induction S as [|x l S IH Hx]; constructor; [|done].
    intros Hin. rewrite Forall_forall in Hx. specialize (Hx x Hin). lia. }
  destruct (simulation_loop_spec steps now dates V)
    as (now' & l & Hl & _ & Hi & Wl & Nl & Hlow & H0 & Hpos).
  { unfold usec_per_day in *. lia. }
  { unfold usec_per_day, usec_per_hour, MAXORDINAL in *. lia. }
  { eapply Forall_impl; [exact Hd|]. by intros d [? _]. }
  { done. }
  { rewrite Forall_forall in Hd. intros x Hx. by destruct (Hd x Hx). }
  exists now', l. split; [done|]. split; [done|]. split; [done|]. split; [done|].
  split.
  - intros E. by rewrite (H0 E).
  - intros E. destruct (Hpos E) as [Hup Hin]. split; [|done]. lia.
Qed.

Lemma simulation_stays_bounded_witness :
  (valid sample_now ∧ 1001 ≤ year sample_now ≤ 9998 ∧ Z.of_nat 720 ≤ 8760) ∧
  ∃ now' l, simulation sample_now 720 = Some (now', l) ∧
            instant now' = instant sample_now + Z.of_nat 720 * usec_per_hour ∧
            Forall well_formed l ∧ NoDup l ∧
            (720 = 0 → length l = 2400)%nat ∧
            (1 ≤ 720 → 5 ≤ length l ≤ 8 ∧ strftime now' ∈ l)%nat.
Proof.
  assert (valid sample_now) as V
    by (apply valid_datetime_spec; vm_compute; reflexivity).
  assert (1001 ≤ year sample_now ≤ 9998) as Y by (vm_compute; split; discriminate).
  assert (Z.of_nat 720 ≤ 8760) as K by (vm_compute; discriminate).
  split; [split_and!; assumption|].
  exact (simulation_stays_bounded sample_now 720 V Y K).
Defined.

